(** * Podcast agent: the segment research-and-writing workflow

    A shallow embedding of the Python sources of the repository
    (utils.py, configuration.py, state.py, graph.py and the transcript
    preprocessing of podcast_generator.py), and the properties of the
    specification stated and settled over it.

    Conventions of the embedding.
    - A Python [str] is a [string]; one character stands for one code point
      (the model covers code points below 256).
    - A Python [int] is a [Z].
    - A function that may raise returns [exn + A].
    - External capabilities (language model, web search) are parameters.
    - Pydantic segment objects are mutable and shared between the plan and
      the accumulator: they live in a store and lists hold references. *)

From Stdlib Require Import ZArith List Ascii String DecimalString Lia Permutation.
From stdpp Require Import gmap strings list.

(* ===================================================================== *)
(** * Python primitives used by the sources *)
(* ===================================================================== *)

Module Py.

(** Exceptions raised by the modelled code. *)
Inductive exn : Type :=
| AttributeError (msg : string)
| KeyError (key : string)
| TypeError (msg : string)
| ValueError (msg : string).

(** The line feed, written "\n" in the sources. *)
Definition nl : string := String (ascii_of_nat 10) "".

(** [len(s)] *)
Definition len (s : string) : Z := Z.of_nat (String.length s).

(** [str(n)] / the rendering of an int inside an f-string. *)
Definition str_of_int (n : Z) : string := NilZero.string_of_int (Z.to_int n).

(** [c.isspace()] on the code points below 256. *)
Definition isspace (c : ascii) : bool :=
  let n := nat_of_ascii c in
  ((9 <=? n) && (n <=? 13)) || ((28 <=? n) && (n <=? 32))
  || (n =? 133) || (n =? 160).

Fixpoint lstrip (s : string) : string :=
  match s with
  | String c s' => if isspace c then lstrip s' else s
  | EmptyString => EmptyString
  end.

Fixpoint rstrip (s : string) : string :=
  match s with
  | EmptyString => EmptyString
  | String c s' =>
      match rstrip s' with
      | EmptyString => if isspace c then EmptyString else String c EmptyString
      | r => String c r
      end
  end.

(** [s.strip()] *)
Definition strip (s : string) : string := rstrip (lstrip s).

(** [s[:n]]: a negative bound counts from the end. *)
Definition slice_to (s : string) (n : Z) : string :=
  if (0 <=? n)%Z then String.substring 0 (Z.to_nat n) s
  else String.substring 0 (Z.to_nat (len s + n)) s.

(** [sep.join(parts)] *)
Fixpoint join (sep : string) (parts : list string) : string :=
  match parts with
  | [] => ""
  | [p] => p
  | p :: rest => p +:+ sep +:+ join sep rest
  end.

(** [s.startswith(p)] *)
Definition startswith (s p : string) : bool := String.prefix p s.

(** [c.lower()] on the code points below 256: the letters A-Z and the
    accented capitals 192-222 (215, the multiplication sign, has no case). *)
Definition lower_char (c : ascii) : ascii :=
  let n := nat_of_ascii c in
  if ((65 <=? n) && (n <=? 90))
     || ((192 <=? n) && (n <=? 222) && negb (n =? 215))
  then ascii_of_nat (n + 32) else c.

Fixpoint lower (s : string) : string :=
  match s with
  | EmptyString => EmptyString
  | String c s' => String (lower_char c) (lower s')
  end.

(** [s * n] *)
Fixpoint repeat_str (s : string) (n : nat) : string :=
  match n with
  | O => ""
  | S n' => s +:+ repeat_str s n'
  end.

(** [str(b)] for a bool. *)
Definition str_of_bool (b : bool) : string := if b then "True" else "False".

(** ** Insertion-ordered dictionaries

    A Python [dict] keeps its keys in the order of their first insertion;
    assigning to a key that is present replaces the value in place. *)
Section Dict.
Context {V : Type}.

Definition dict : Type := list (string * V).

Fixpoint dict_set (d : dict) (k : string) (v : V) : dict :=
    match d with
    | [] => [(k, v)]
    | (k', v') :: d' =>
        if String.eqb k' k then (k', v) :: d' else (k', v') :: dict_set d' k v
    end.

Fixpoint dict_get (d : dict) (k : string) : option V :=
    match d with
    | [] => None
    | (k', v') :: d' => if String.eqb k' k then Some v' else dict_get d' k
    end.

Definition dict_keys (d : dict) : list string := map fst d.
Definition dict_values (d : dict) : list V := map snd d.
End Dict.
Arguments dict : clear implicits.

End Py.
Import Py.

(* ===================================================================== *)
(** * state.py: the data model *)
(* ===================================================================== *)

Module State.

Record PodcastSegment : Type := mkSegment {
  title : string;
  duration : string;
  description : string;
  research : bool;
  dialogue : string
}.

(** Field-by-field equality, the [__eq__] of a pydantic model. *)
Definition segment_eqb (a b : PodcastSegment) : bool :=
  String.eqb (title a) (title b) && String.eqb (duration a) (duration b)
  && String.eqb (description a) (description b)
  && Bool.eqb (research a) (research b)
  && String.eqb (dialogue a) (dialogue b).

(** Segment objects are mutable and shared: a list of segments is a list of
    references into a store of objects. *)
Definition loc : Type := nat.
Definition store : Type := loc -> PodcastSegment.

(** [segment.dialogue = d] *)
Definition set_dialogue (h : store) (r : loc) (d : string) : store :=
  fun r' =>
    if Nat.eqb r' r
    then {| title := title (h r); duration := duration (h r);
            description := description (h r); research := research (h r);
            dialogue := d |}
    else h r'.

(** [x in xs] on a list of objects: identity or equality with an element. *)
Definition py_in (h : store) (x : loc) (xs : list loc) : bool :=
  existsb (fun e => Nat.eqb e x || segment_eqb (h e) (h x)) xs.

(** [search_query] defaults to [None]. *)
Record SearchQuery : Type := mkSearchQuery {
  search_query : option string
}.

Inductive Grade : Type := pass | fail.

Record DialogueFeedback : Type := mkFeedback {
  grade : Grade;
  improvement_suggestions : list string;
  revised_transcript : option string;
  follow_up_queries : list SearchQuery
}.

(** The state of one segment sub-workflow. [search_queries] and
    [source_str] have no value until a node has written them. *)
Record SegmentState : Type := mkSegmentState {
  segment : loc;
  search_iterations : Z;
  search_queries : option (list SearchQuery);
  source_str : option string;
  host : string;
  guest : string
}.

(** [completed_segments: Annotated[list, operator.add]]: the reducer that
    merges an update into the accumulator is list concatenation. *)
Definition operator_add {A : Type} (acc update : list A) : list A :=
  acc ++ update.

End State.

(* ===================================================================== *)
(** * configuration.py *)
(* ===================================================================== *)

Module Config.

Inductive SearchAPI : Type := TAVILY.
Inductive PlannerProvider : Type := PLANNER_OPENAI | PLANNER_ANTHROPIC.
Inductive WriterProvider : Type := WRITER_OPENAI | WRITER_ANTHROPIC.

(** The Python values a configuration entry can hold. A dataclass does not
    check its field types, and an environment variable is always a string,
    so every field ranges over all of them. *)
Inductive value : Type :=
| VNone
| VBool (b : bool)
| VInt (n : Z)
| VStr (s : string)
| VSearchAPI (a : SearchAPI)
| VPlanner (p : PlannerProvider)
| VWriter (w : WriterProvider).

(** Truth value of an object, as tested by [if v]. *)
Definition truthy (v : value) : bool :=
  match v with
  | VNone => false
  | VBool b => b
  | VInt n => negb (n =? 0)%Z
  | VStr s => negb (String.eqb s "")
  | VSearchAPI _ | VPlanner _ | VWriter _ => true
  end.

(** A [RunnableConfig] is a plain dict; only its ["configurable"] entry is
    read. [other_keys] are the remaining keys of the dict. *)
Record RunnableConfig : Type := mkRunnableConfig {
  configurable : option (gmap string value);
  other_keys : list string
}.

(** [os.environ] *)
Abbreviation environ := (gmap string string).

(** The fields of the dataclass, in declaration order. *)
Inductive field : Type :=
| fld_podcast_structure | fld_number_of_queries | fld_max_search_depth
| fld_planner_provider | fld_planner_model | fld_writer_provider | fld_writer_model
| fld_search_api.

Definition fields : list field :=
  [fld_podcast_structure; fld_number_of_queries; fld_max_search_depth; fld_planner_provider;
   fld_planner_model; fld_writer_provider; fld_writer_model; fld_search_api].

(** [f.name] *)
Definition field_name (f : field) : string :=
  match f with
  | fld_podcast_structure => "podcast_structure"
  | fld_number_of_queries => "number_of_queries"
  | fld_max_search_depth => "max_search_depth"
  | fld_planner_provider => "planner_provider"
  | fld_planner_model => "planner_model"
  | fld_writer_provider => "writer_provider"
  | fld_writer_model => "writer_model"
  | fld_search_api => "search_api"
  end.

(** [DEFAULT_PODCAST_STRUCTURE], the text template of the module. *)
Definition DEFAULT_PODCAST_STRUCTURE : string :=
  nl +:+ "Use this structure to create a 30-minute podcast dialogue:" +:+ nl
  +:+ nl
  +:+ "1. Opening (2-3 minutes)" +:+ nl
  +:+ "   - Host introduction (30 seconds)" +:+ nl
  +:+ "   - Guest introduction (30-60 seconds)" +:+ nl
  +:+ "   - Topic overview (1 minute)" +:+ nl
  +:+ nl
  +:+ "2. Main Segments (24-25 minutes total)" +:+ nl
  +:+ "   - 3-4 key discussion topics" +:+ nl
  +:+ "   - Each segment 6-8 minutes" +:+ nl
  +:+ "   " +:+ nl
  +:+ "3. Closing (2-3 minutes)" +:+ nl
  +:+ "   - Key takeaways (1 minute)" +:+ nl
  +:+ "   - Guest final thoughts (30-60 seconds)" +:+ nl
  +:+ "   - Host wrap-up (30 seconds)" +:+ nl.

(** The default of each field. *)
Definition default_of (f : field) : value :=
  match f with
  | fld_podcast_structure => VStr DEFAULT_PODCAST_STRUCTURE
  | fld_number_of_queries => VInt 15
  | fld_max_search_depth => VInt 4
  | fld_planner_provider => VPlanner PLANNER_OPENAI
  | fld_planner_model => VStr "gpt-4o"
  | fld_writer_provider => VWriter WRITER_ANTHROPIC
  | fld_writer_model => VStr "claude-3-5-sonnet-latest"
  | fld_search_api => VSearchAPI TAVILY
  end.

(** The dataclass instance: one attribute per field. *)
Record Configuration : Type := mkConfiguration {
  cfg_podcast_structure : value;
  cfg_number_of_queries : value;
  cfg_max_search_depth : value;
  cfg_planner_provider : value;
  cfg_planner_model : value;
  cfg_writer_provider : value;
  cfg_writer_model : value;
  cfg_search_api : value
}.

(** Attribute access [configuration.<field>]. *)
Definition getattr (f : field) (c : Configuration) : value :=
  match f with
  | fld_podcast_structure => cfg_podcast_structure c
  | fld_number_of_queries => cfg_number_of_queries c
  | fld_max_search_depth => cfg_max_search_depth c
  | fld_planner_provider => cfg_planner_provider c
  | fld_planner_model => cfg_planner_model c
  | fld_writer_provider => cfg_writer_provider c
  | fld_writer_model => cfg_writer_model c
  | fld_search_api => cfg_search_api c
  end.

(** [c.upper()] on the letters a-z, which is all a field name contains
    besides the underscore. *)
Definition upper_char (c : ascii) : ascii :=
  let n := nat_of_ascii c in
  if (97 <=? n) && (n <=? 122) then ascii_of_nat (n - 32) else c.

Fixpoint upper (s : string) : string :=
  match s with
  | EmptyString => EmptyString
  | String c s' => String (upper_char c) (upper s')
  end.

(** [os.environ.get(key, default)] *)
Definition environ_get (env : environ) (key : string) (dflt : value) : value :=
  match env !! key with
  | Some s => VStr s
  | None => dflt
  end.

(** [configurable.get(key)] *)
Definition configurable_get (c : gmap string value) (key : string) : value :=
  match c !! key with
  | Some v => v
  | None => VNone
  end.

(** The constructor call with keyword arguments: a keyword that is given
    sets the field, a field without a keyword takes
    its default. *)
Definition cls (kwargs : dict value) : Configuration :=
  let arg f := match dict_get kwargs (field_name f) with
               | Some v => v
               | None => default_of f
               end in
  {| cfg_podcast_structure := arg fld_podcast_structure;
     cfg_number_of_queries := arg fld_number_of_queries;
     cfg_max_search_depth := arg fld_max_search_depth;
     cfg_planner_provider := arg fld_planner_provider;
     cfg_planner_model := arg fld_planner_model;
     cfg_writer_provider := arg fld_writer_provider;
     cfg_writer_model := arg fld_writer_model;
     cfg_search_api := arg fld_search_api |}.

(** Truth value of the config dict itself: a dict is true when it has a key. *)
Definition config_truthy (config : RunnableConfig) : bool :=
  match configurable config, other_keys config with
  | None, [] => false
  | _, _ => true
  end.

(** [config["configurable"] if config and "configurable" in config else {}] *)
Definition configurable_of (config : option RunnableConfig) : gmap string value :=
  match config with
  | Some c =>
      if config_truthy c then
        match configurable c with
        | Some m => m
        | None => ∅
        end
      else ∅
  | None => ∅
  end.

Definition from_runnable_config (env : environ) (config : option RunnableConfig)
  : Configuration :=
  let configurable := configurable_of config in
  let values : dict value :=
    foldl (fun d f =>
             dict_set d (field_name f)
               (environ_get env (upper (field_name f))
                  (configurable_get configurable (field_name f))))
          [] fields in
  cls (List.filter (fun kv => truthy (snd kv)) values).

End Config.

(* ===================================================================== *)
(** * utils.py: the source aggregator *)
(* ===================================================================== *)

Module Utils.

(** The [raw_content] entry of a search result: the key may be absent,
    hold [None], or hold a string. *)
Inductive raw_field : Type :=
| RawAbsent
| RawNone
| RawStr (s : string).

(** One search result. The [score] entry is never read by the aggregator
    and is left out. *)
Record Source : Type := mkSource {
  title : string;
  url : string;
  content : string;
  raw_content : raw_field
}.

Record SearchResponse : Type := mkResponse {
  query : string;
  results : list Source
}.

(** [for response in search_response: sources_list.extend(response['results'])] *)
Definition sources_list (search_response : list SearchResponse) : list Source :=
  foldl (fun acc response => acc ++ results response) [] search_response.

(** [{source['url']: source for source in sources_list}] *)
Definition unique_sources (l : list Source) : dict Source :=
  foldl (fun d source => dict_set d (url source) source) [] l.

(** The text shown for the raw content of one source
    (lines 47-53 of utils.py). *)
Definition limited_raw_content (max_tokens_per_source : Z) (source : Source)
  : string :=
  let char_limit := (max_tokens_per_source * 4)%Z in
  let raw_content :=
    match raw_content source with
    | RawAbsent => ""
    | RawNone => ""
    | RawStr s => s
    end in
  if (len raw_content >? char_limit)%Z
  then slice_to raw_content char_limit +:+ "... [truncated]"
  else raw_content.

(** The body of the formatting loop: what one source adds to
    [formatted_text]. *)
Definition add_source (max_tokens_per_source : Z) (include_raw_content : bool)
    (formatted_text : string) (source : Source) : string :=
  let formatted_text :=
    formatted_text +:+ ("Source " +:+ title source +:+ ":" +:+ nl +:+ "===" +:+ nl) in
  let formatted_text :=
    formatted_text +:+ ("URL: " +:+ url source +:+ nl +:+ "===" +:+ nl) in
  let formatted_text :=
    formatted_text +:+ ("Most relevant content from source: " +:+ content source
                        +:+ nl +:+ "===" +:+ nl) in
  if include_raw_content then
    formatted_text +:+ ("Full source content limited to "
                        +:+ str_of_int max_tokens_per_source +:+ " tokens: "
                        +:+ limited_raw_content max_tokens_per_source source
                        +:+ nl +:+ nl)
  else formatted_text.

Definition deduplicate_and_format_sources (search_response : list SearchResponse)
    (max_tokens_per_source : Z) (include_raw_content : bool) : string :=
  let sources_list := sources_list search_response in
  let unique_sources := unique_sources sources_list in
  let formatted_text := "Sources:" +:+ nl +:+ nl in
  let formatted_text :=
    foldl (add_source max_tokens_per_source include_raw_content)
          formatted_text (dict_values unique_sources) in
  strip formatted_text.

(** [format_segments]: one block per segment, numbered from 1. The text is
    the triple-quoted f-string of the source, its indentation included. *)
Definition format_segment (idx : Z) (segment : State.PodcastSegment) : string :=
  let indent := repeat_str " " 11 in
  nl +:+ indent +:+ repeat_str "=" 60 +:+ nl
  +:+ indent +:+ "Segment " +:+ str_of_int idx +:+ ": " +:+ State.title segment +:+ nl
  +:+ indent +:+ repeat_str "=" 60 +:+ nl
  +:+ indent +:+ "Duration: " +:+ State.duration segment +:+ nl
  +:+ indent +:+ "Description: " +:+ State.description segment +:+ nl
  +:+ indent +:+ "Requires Research: " +:+ str_of_bool (State.research segment) +:+ nl
  +:+ nl
  +:+ indent +:+ "Dialogue:" +:+ nl
  +:+ indent +:+ (if String.eqb (State.dialogue segment) ""
                  then "[Not yet written]" else State.dialogue segment) +:+ nl
  +:+ repeat_str " " 7.

Definition format_segments (h : State.store) (segments : list State.loc) : string :=
  snd (foldl (fun '(idx, formatted_str) segment =>
                ((idx + 1)%Z, formatted_str +:+ format_segment idx (h segment)))
             (1%Z, "") segments).

(** [get_config_value]: a string as it is, otherwise the [value] attribute,
    which only an enum member has. *)
Definition get_config_value (v : Config.value) : exn + string :=
  match v with
  | Config.VStr s => inr s
  | Config.VSearchAPI Config.TAVILY => inr "tavily"
  | Config.VPlanner Config.PLANNER_OPENAI => inr "openai"
  | Config.VPlanner Config.PLANNER_ANTHROPIC => inr "anthropic"
  | Config.VWriter Config.WRITER_OPENAI => inr "openai"
  | Config.VWriter Config.WRITER_ANTHROPIC => inr "anthropic"
  | Config.VNone => inl (AttributeError "'NoneType' object has no attribute 'value'")
  | Config.VBool _ => inl (AttributeError "'bool' object has no attribute 'value'")
  | Config.VInt _ => inl (AttributeError "'int' object has no attribute 'value'")
  end.

End Utils.

(* ===================================================================== *)
(** * graph.py: the workflow *)
(* ===================================================================== *)

Module Graph.
Import State Config.

(** The prompt templates of prompts.py, each with the arguments its
    [format] call fills in. *)
Inductive prompt : Type :=
| podcast_planner_query_writer_instructions
    (topic : string) (podcast_organization number_of_queries : value)
| podcast_planner_instructions
    (topic : string) (podcast_structure : value) (context : string)
| query_writer_instructions (segment_topic : string) (number_of_queries : value)
| dialogue_writer_instructions
    (segment_topic context host_name guest_name : string)
| transcript_optimizer_instructions (transcript : string)
| final_segment_writer_instructions (segment_type context : string).

(** The external capabilities. A chat model is selected by model name and
    provider. The calls made at temperature 0.7 also take the number of the
    call, so that the same prompt may be answered differently each time.
    [structured_segments] answers with references to the segment objects it
    has built. *)
Record Capabilities : Type := mkCapabilities {
  structured_queries : string -> string -> prompt -> list SearchQuery;
  structured_segments : string -> string -> prompt -> list loc;
  chat : nat -> string -> string -> prompt -> string;
  structured_feedback : nat -> string -> string -> prompt -> DialogueFeedback;
  tavily_search_async : list (option string) -> exn + list Utils.SearchResponse
}.

(** Sequencing of computations that may raise. *)
Definition bind {A B : Type} (m : exn + A) (k : A -> exn + B) : exn + B :=
  match m with
  | inl e => inl e
  | inr a => k a
  end.

Notation "'do' x <- m ; k" := (bind m (fun x => k))
  (at level 10, x pattern, m at level 100, k at level 200).

(** [state[key]] on an entry that may have no value yet. *)
Definition state_get {A : Type} (key : string) (entry : option A) : exn + A :=
  match entry with
  | Some a => inr a
  | None => inl (KeyError key)
  end.

(** [str(v)] of a configuration value, as an f-string renders it. *)
Definition str_of_value (v : value) : string :=
  match v with
  | VNone => "None"
  | VBool b => str_of_bool b
  | VInt n => str_of_int n
  | VStr s => s
  | VSearchAPI TAVILY => "SearchAPI.TAVILY"
  | VPlanner PLANNER_OPENAI => "PlannerProvider.OPENAI"
  | VPlanner PLANNER_ANTHROPIC => "PlannerProvider.ANTHROPIC"
  | VWriter WRITER_OPENAI => "WriterProvider.OPENAI"
  | VWriter WRITER_ANTHROPIC => "WriterProvider.ANTHROPIC"
  end.

(** [config.<attr>] on the run-time config. The config is a plain dict
    ([from_runnable_config] subscripts it): its entries are not attributes,
    and the name asked for is not one of the methods of [dict]. *)
Definition config_getattr (config : RunnableConfig) (attr : string) : exn + value :=
  inl (AttributeError ("'dict' object has no attribute '" +:+ attr +:+ "'")).

(** [n >= v] for an int [n]. *)
Definition int_ge (n : Z) (v : value) : exn + bool :=
  match v with
  | VInt m => inr (n >=? m)%Z
  | VBool b => inr (n >=? (if b then 1 else 0))%Z
  | VNone => inl (TypeError "'>=' not supported between instances of 'int' and 'NoneType'")
  | VStr _ => inl (TypeError "'>=' not supported between instances of 'int' and 'str'")
  | _ => inl (TypeError "'>=' not supported between instances of 'int' and an enum member")
  end.

(** What a node of the segment sub-workflow returns to the graph. *)
Inductive Command : Type :=
| goto_END (completed_segments : list loc)
| goto_search_web (search_queries : list SearchQuery) (segment : loc).

(** A dispatch of the segment sub-workflow on one segment. *)
Record Send : Type := mkSend {
  node : string;
  arg : SegmentState
}.

(** The update [generate_podcast_plan] returns beside its dispatches. *)
Record PlanUpdate : Type := mkPlanUpdate {
  plan_segments : list loc;
  plan_completed_segments : list loc
}.

(** The update [write_intro_outro] returns. *)
Record IntroOutroUpdate : Type := mkIntroOutroUpdate {
  io_completed_segments : list loc;
  io_episode_segments_from_research : string
}.

Section Nodes.
Variable cap : Capabilities.
Variable env : environ.

Definition generate_podcast_plan (h : store) (topic host guest : string)
      (config : option RunnableConfig) : exn + (list Send * PlanUpdate) :=
    let configurable := from_runnable_config env config in
    let podcast_structure := cfg_podcast_structure configurable in
    let number_of_queries := cfg_number_of_queries configurable in
    do model <- Utils.get_config_value (cfg_writer_model configurable);
    do provider <- Utils.get_config_value (cfg_writer_provider configurable);
    let query_results :=
      structured_queries cap model provider
        (podcast_planner_query_writer_instructions
           topic podcast_structure number_of_queries) in
    do search_results <- tavily_search_async cap (map search_query query_results);
    let source_str :=
      Utils.deduplicate_and_format_sources search_results 500 true in
    let podcast_segments :=
      structured_segments cap model provider
        (podcast_planner_instructions topic podcast_structure source_str) in
    let non_research :=
      List.filter (fun s => negb (research (h s))) podcast_segments in
    inr (map (fun s =>
                mkSend "build_segment_with_research"
                  {| segment := s; search_iterations := 0;
                     search_queries := None; source_str := None;
                     host := host; guest := guest |})
             (List.filter (fun s => research (h s)) podcast_segments),
         {| plan_segments := podcast_segments;
            plan_completed_segments := non_research |}).

  (** Returns the update of [search_queries]. *)
Definition generate_queries (h : store) (state : SegmentState)
      (config : option RunnableConfig) : exn + list SearchQuery :=
    let segment := segment state in
    let configurable := from_runnable_config env config in
    let number_of_queries := cfg_number_of_queries configurable in
    do writer_provider <- Utils.get_config_value (cfg_writer_provider configurable);
    do writer_model_name <- Utils.get_config_value (cfg_writer_model configurable);
    inr (structured_queries cap writer_model_name writer_provider
           (query_writer_instructions (description (h segment)) number_of_queries)).

  (** Returns the updates of [source_str] and [search_iterations]. *)
Definition search_web (state : SegmentState) (config : option RunnableConfig)
    : exn + (string * Z) :=
    do search_queries <- state_get "search_queries" (search_queries state);
    let configurable := from_runnable_config env config in
    let query_list := map search_query search_queries in
    do search_api <- Utils.get_config_value (cfg_search_api configurable);
    match tavily_search_async cap query_list with
    | inr search_results =>
        let source_str :=
          Utils.deduplicate_and_format_sources search_results 500 true in
        inr (source_str, (search_iterations state + 1)%Z)
    | inl e =>
        inl (ValueError ("Unsupported search API: "
                         +:+ str_of_value (cfg_search_api configurable)))
    end.

  (** [round] numbers the drafts of one sub-workflow run; the node itself is
      handed the config dict, here [config], by the graph. *)
Definition write_dialogue (round : nat) (h : store) (state : SegmentState)
      (config : RunnableConfig) : exn + (store * Command) :=
    let segment := segment state in
    do source_str <- state_get "source_str" (source_str state);
    let host := host state in
    let guest := guest state in
    let configurable := from_runnable_config env (Some config) in
    do model <- Utils.get_config_value (cfg_writer_model configurable);
    do provider <- Utils.get_config_value (cfg_writer_provider configurable);
    let dialogue_content :=
      chat cap round model provider
        (dialogue_writer_instructions
           (description (h segment)) source_str host guest) in
    let h := set_dialogue h segment dialogue_content in
    let feedback :=
      structured_feedback cap round model provider
        (transcript_optimizer_instructions (dialogue (h segment))) in
    do accept <-
      match grade feedback with
      | pass => inr true
      | fail =>
          do max_search_depth <- config_getattr config "max_search_depth";
          int_ge (search_iterations state) max_search_depth
      end;
    if accept : bool
    then inr (h, goto_END [segment])
    else inr (h, goto_search_web (follow_up_queries feedback) segment).

  (** The compiled segment sub-workflow: START, [generate_queries],
      [search_web], [write_dialogue], and from there END or [search_web]
      again. [None] when [fuel] rounds did not reach END. On END it yields
      the store, the final state and the [completed_segments] update. *)
Fixpoint research_rounds (fuel round : nat) (h : store) (state : SegmentState)
      (config : RunnableConfig)
    : option (exn + (store * SegmentState * list loc)) :=
    match fuel with
    | O => None
    | S fuel' =>
        match search_web state (Some config) with
        | inl e => Some (inl e)
        | inr (source, iterations) =>
            let state :=
              {| segment := segment state; search_iterations := iterations;
                 search_queries := search_queries state;
                 source_str := Some source;
                 host := host state; guest := guest state |} in
            match write_dialogue round h state config with
            | inl e => Some (inl e)
            | inr (h', goto_END completed) => Some (inr (h', state, completed))
            | inr (h', goto_search_web queries s) =>
                research_rounds fuel' (S round) h'
                  {| segment := s; search_iterations := search_iterations state;
                     search_queries := Some queries;
                     source_str := source_str state;
                     host := host state; guest := guest state |}
                  config
            end
        end
    end.

Definition build_segment_with_research (fuel : nat) (h : store)
      (state : SegmentState) (config : RunnableConfig)
    : option (exn + (store * SegmentState * list loc)) :=
    match generate_queries h state (Some config) with
    | inl e => Some (inl e)
    | inr queries =>
        research_rounds fuel 0 h
          {| segment := segment state;
             search_iterations := search_iterations state;
             search_queries := Some queries;
             source_str := source_str state;
             host := host state; guest := guest state |}
          config
    end.

  (** [next((s for s in segments if s.title.lower() == name), None)] *)
Definition find_titled (h : store) (name : string) (segments : list loc)
    : option loc :=
    List.find (fun s => String.eqb (lower (title (h s))) name) segments.

  (** One of the two writing steps of [write_intro_outro]: the segment is
      written only if there is one and it is not in [completed_segments]. *)
Definition write_final_segment (call : nat) (model provider : string)
      (segment_type episode_segments : string) (completed_segments : list loc)
      (target : option loc) (acc : store * list loc) : store * list loc :=
    let '(h, new_completed) := acc in
    match target with
    | Some s =>
        if negb (py_in h s completed_segments) then
          let dialogue_content :=
            chat cap call model provider
              (final_segment_writer_instructions segment_type episode_segments) in
          (set_dialogue h s dialogue_content, new_completed ++ [s])
        else (h, new_completed)
    | None => (h, new_completed)
    end.

Definition write_intro_outro (h : store) (segments completed_segments : list loc)
      (config : option RunnableConfig) : exn + (store * IntroOutroUpdate) :=
    let intro_segment := find_titled h "intro" segments in
    let outro_segment := find_titled h "outro" segments in
    let configurable := from_runnable_config env config in
    do model <- Utils.get_config_value (cfg_writer_model configurable);
    do provider <- Utils.get_config_value (cfg_writer_provider configurable);
    let new_completed := [] in
    let episode_segments := Utils.format_segments h completed_segments in
    let '(h, new_completed) :=
      write_final_segment 0 model provider "opening" episode_segments
        completed_segments intro_segment (h, new_completed) in
    let '(h, new_completed) :=
      write_final_segment 1 model provider "closing" episode_segments
        completed_segments outro_segment (h, new_completed) in
    let updated_completed := completed_segments ++ new_completed in
    inr (h, {| io_completed_segments := updated_completed;
               io_episode_segments_from_research :=
                 Utils.format_segments h updated_completed |}).

End Nodes.

(** [{s.title: s.dialogue for s in completed_segments}] *)
Definition title_dialogue_map (h : store) (completed : list loc)
  : gmap string string :=
  foldl (fun m s => <[title (h s) := dialogue (h s)]> m) ∅ completed.

(** [[s.title for s in segments if s.title not in completed_segments]] *)
Definition missing_titles (h : store) (m : gmap string string)
    (segments : list loc) : list string :=
  map (fun s => title (h s))
      (List.filter (fun s => match m !! title (h s) with
                             | Some _ => false
                             | None => true
                             end) segments).

(** [for segment in segments: segment.dialogue = completed_segments[segment.title]] *)
Fixpoint assign_dialogues (m : gmap string string) (h : store)
    (segments : list loc) : exn + store :=
  match segments with
  | [] => inr h
  | segment :: rest =>
      match m !! title (h segment) with
      | Some d => assign_dialogues m (set_dialogue h segment d) rest
      | None => inl (KeyError (title (h segment)))
      end
  end.

(** Makes no call to a capability: it takes none. *)
Definition compile_final_transcript (h : store)
    (segments completed : list loc) : exn + (store * string) :=
  let completed_segments := title_dialogue_map h completed in
  let missing := missing_titles h completed_segments segments in
  match missing with
  | _ :: _ =>
      inl (ValueError ("Missing processed segments: " +:+ join ", " missing))
  | [] =>
      do h <- assign_dialogues completed_segments h segments;
      let final_transcript :=
        join (nl +:+ nl) (map (fun s => dialogue (h s)) segments) in
      inr (h, final_transcript)
  end.

End Graph.

(* ===================================================================== *)
(** * podcast_generator.py: transcript preprocessing *)
(* ===================================================================== *)

Module PodcastGenerator.

(** [re.sub(r'\*+', '', transcript)]: every run of asterisks is deleted. *)
Fixpoint remove_asterisks (s : string) : string :=
  match s with
  | EmptyString => EmptyString
  | String c s' =>
      if Ascii.eqb c "*" then remove_asterisks s'
      else String c (remove_asterisks s')
  end.

(** [s.split('\n')] *)
Fixpoint split_lines (s : string) : list string :=
  match s with
  | EmptyString => [EmptyString]
  | String c s' =>
      if Ascii.eqb c (ascii_of_nat 10) then EmptyString :: split_lines s'
      else match split_lines s' with
           | line :: rest => String c line :: rest
           | [] => [String c EmptyString]
           end
  end.

(** [s.replace(old, new)] for a non-empty [old]: the occurrences are found
    from left to right and do not overlap. [skip] counts the characters of
    an occurrence that are still to be passed over. *)
Fixpoint replace_from (old new : string) (skip : nat) (s : string) : string :=
  match s with
  | EmptyString => EmptyString
  | String c s' =>
      match skip with
      | S k => replace_from old new k s'
      | O =>
          if String.prefix old s
          then new +:+ replace_from old new (String.length old - 1) s'
          else String c (replace_from old new 0 s')
      end
  end.

(** With an empty [old], [new] is put before every character and at the
    end. *)
Fixpoint intersperse (new s : string) : string :=
  match s with
  | EmptyString => new
  | String c s' => new +:+ String c (intersperse new s')
  end.

Definition replace (s old new : string) : string :=
  match old with
  | EmptyString => intersperse new s
  | _ => replace_from old new 0 s
  end.

(** An entry of the conversation list: [{'role': ..., 'text': ...}]. *)
Record Entry : Type := mkEntry {
  role : string;
  text : string
}.

(** The body of the loop over the lines. *)
Definition add_line (host_name guest_name : string)
    (conversations : list Entry) (line : string) : list Entry :=
  let line := strip line in
  if String.eqb line "" then conversations
  else if startswith line (host_name +:+ ":") then
    conversations ++ [{| role := "host";
                         text := strip (replace line (host_name +:+ ":") "") |}]
  else if startswith line (guest_name +:+ ":") then
    conversations ++ [{| role := "guest";
                         text := strip (replace line (guest_name +:+ ":") "") |}]
  else conversations.

Definition preprocess_transcript (transcript host_name guest_name : string)
  : list Entry :=
  let transcript := remove_asterisks transcript in
  let lines := split_lines transcript in
  foldl (add_line host_name guest_name) [] lines.

End PodcastGenerator.

(* ===================================================================== *)
(** * Vocabulary of the statements *)
(* ===================================================================== *)

(** Whether a key is among a list of keys. *)
Definition key_in (k : string) (ks : list string) : bool :=
  existsb (String.eqb k) ks.

(** The elements of a list of keys in the order of their first occurrence. *)
Fixpoint first_occurrences (ks : list string) : list string :=
  match ks with
  | [] => []
  | k :: rest =>
      k :: List.filter (fun k' => negb (String.eqb k' k)) (first_occurrences rest)
  end.

(** The last source of a list that has a given URL. *)
Fixpoint last_with_url (u : string) (l : list Utils.Source) : option Utils.Source :=
  match l with
  | [] => None
  | s :: rest =>
      match last_with_url u rest with
      | Some s' => Some s'
      | None => if String.eqb (Utils.url s) u then Some s else None
      end
  end.

(** The text one source contributes to the output. *)
Definition source_block (max_tokens_per_source : Z) (include_raw_content : bool)
    (source : Utils.Source) : string :=
  Utils.add_source max_tokens_per_source include_raw_content "" source.

(** Concatenation of a list of strings. *)
Definition concat_str (l : list string) : string :=
  foldr String.append "" l.

(** Every entry of the dict is stored under the URL of its value. *)
Definition keyed_by_url (d : dict Utils.Source) : Prop :=
  Forall (fun kv => fst kv = Utils.url (snd kv)) d.

(** The dialogue of the last segment of an accumulator that has a given
    title. *)
Fixpoint last_dialogue (h : State.store) (t : string) (completed : list State.loc)
  : option string :=
  match completed with
  | [] => None
  | s :: rest =>
      match last_dialogue h t rest with
      | Some d => Some d
      | None =>
          if String.eqb (State.title (h s)) t
          then Some (State.dialogue (h s)) else None
      end
  end.

(** The titles of a list of segments. *)
Definition titles (h : State.store) (l : list State.loc) : list string :=
  map (fun s => State.title (h s)) l.

(** A store holding the given segments at the references 0, 1, 2, ... *)
Definition store_of (l : list State.PodcastSegment) : State.store :=
  fun r => nth r l (State.mkSegment "" "" "" false "").

(** Capabilities for the examples: the model answers every drafting prompt
    with the same line, the search finds nothing, the plan is the four
    segment objects 0-3, and every draft gets the given grade. *)
Definition example_capabilities (g : State.Grade) : Graph.Capabilities :=
  {| Graph.structured_queries := fun _ _ _ => [State.mkSearchQuery (Some "q")];
     Graph.structured_segments := fun _ _ _ => [0; 1; 2; 3];
     Graph.chat := fun _ _ _ _ => "Ann: hello";
     Graph.structured_feedback :=
       fun _ _ _ _ => State.mkFeedback g [] None [State.mkSearchQuery (Some "more")];
     Graph.tavily_search_async := fun _ => inr [] |}.

(** The state a dispatch hands to the segment sub-workflow. *)
Definition dispatched (s : State.loc) (host guest : string) : State.SegmentState :=
  {| State.segment := s; State.search_iterations := 0;
     State.search_queries := None; State.source_str := None;
     State.host := host; State.guest := guest |}.

(** A config dict whose configurable entry sets the maximum search depth. *)
Definition config_with_depth (d : Z) : Config.RunnableConfig :=
  Config.mkRunnableConfig (Some {[ "max_search_depth" := Config.VInt d ]}) [].

(** What one line of the transcript contributes to the conversation. *)
Definition entry_of_line (host_name guest_name line : string)
  : option PodcastGenerator.Entry :=
  match PodcastGenerator.add_line host_name guest_name [] line with
  | entry :: _ => Some entry
  | [] => None
  end.

(** A source with its raw content entry taken away. *)
Definition without_raw (s : Utils.Source) : Utils.Source :=
  Utils.mkSource (Utils.title s) (Utils.url s) (Utils.content s) Utils.RawAbsent.

(** The same on every result of a response. *)
Definition response_without_raw (r : Utils.SearchResponse) : Utils.SearchResponse :=
  Utils.mkResponse (Utils.query r) (map without_raw (Utils.results r)).

(** The raw content of a source as the aggregator reads it. *)
Definition raw_text (s : Utils.Source) : string :=
  match Utils.raw_content s with
  | Utils.RawStr t => t
  | Utils.RawAbsent | Utils.RawNone => ""
  end.

(** Two segment values that differ in their dialogue at most. *)
Definition same_but_dialogue (a b : State.PodcastSegment) : Prop :=
  State.title a = State.title b /\ State.duration a = State.duration b
  /\ State.description a = State.description b
  /\ State.research a = State.research b.

(** Whether a character occurs in a string. *)
Fixpoint has_char (c : ascii) (s : string) : bool :=
  match s with
  | EmptyString => false
  | String x s' => Ascii.eqb x c || has_char c s'
  end.

(* ===================================================================== *)
(** * podcast_generator.py: voices *)
(* ===================================================================== *)

Module Voices.

(** What the functions of this part raise: an exception of the ones above,
    or the IndexError of a choice from an empty sequence. *)
Inductive raised : Type :=
| Raise (e : exn)
| IndexError (msg : string).

(** [random.choice(seq)]: the element at the position the generator draws;
    the draw is a parameter. *)
Definition random_choice {A : Type} (draw : nat) (seq : list A) : raised + A :=
  match seq with
  | [] => inl (IndexError "Cannot choose from an empty sequence")
  | x :: _ => inr (nth (draw mod length seq) seq x)
  end.

(** [x in xs] for strings. *)
Definition str_in (x : string) (xs : list string) : bool :=
  existsb (String.eqb x) xs.

(** [s.capitalize()] for the letters a-z in first position, which covers
    the two roles that reach it. *)
Definition capitalize (s : string) : string :=
  match s with
  | EmptyString => EmptyString
  | String c s' => String (Config.upper_char c) (lower s')
  end.

(** [setup_voice_for_role]. The file system test and the cloning of a
    voice are parameters; [Voice] is the type of a cloned voice. *)
Definition setup_voice_for_role {Voice : Type} (draw : nat)
    (path_exists : string -> bool)
    (clone_voice : string -> string -> string -> exn + Voice)
    (role : string) (voice_file gender : option string)
  : raised + (option Voice * string) :=
  if negb (str_in role ["host"; "guest"]) then
    inl (Raise (ValueError "Role must be 'host' or 'guest'"))
  else
    match match gender with
          | None => random_choice draw ["male"; "female"]
          | Some g => inr g
          end with
    | inl e => inl e
    | inr gender =>
        if negb (str_in gender ["male"; "female"]) then
          inl (Raise (ValueError "Gender must be 'male' or 'female'"))
        else
          match voice_file with
          | Some file =>
              if negb (String.eqb file "") && path_exists file then
                let name := capitalize role +:+ " Voice" in
                let description := "Cloned voice for " +:+ role in
                match clone_voice file name description with
                | inr voice => inr (Some voice, gender)
                | inl _ => inr (None, gender)
                end
              else inr (None, gender)
          | None => inr (None, gender)
          end
    end.

(** The voice configuration read from the JSON file: either list may be
    absent. *)
Record VoiceConfig : Type := mkVoiceConfig {
  males : option (list string);
  females : option (list string)
}.

(** [config[key]] on the configuration, which is [None] when the file
    could not be loaded. *)
Definition config_list (config : option VoiceConfig) (key : string)
    (entry : VoiceConfig -> option (list string)) : raised + list string :=
  match config with
  | None => inl (Raise (TypeError "'NoneType' object is not subscriptable"))
  | Some c =>
      match entry c with
      | Some l => inr l
      | None => inl (Raise (KeyError key))
      end
  end.

(** [select_voice_id]. [loaded] is what [load_voice_config()] returns. *)
Definition select_voice_id (draw : nat) (loaded : option VoiceConfig)
    (gender : string) (config : option VoiceConfig) : raised + string :=
  let config := match config with
                | None => loaded
                | Some c => Some c
                end in
  let gender := lower gender in
  if String.eqb gender "male" then
    match config_list config "males" males with
    | inl e => inl e
    | inr l => random_choice draw l
    end
  else if String.eqb gender "female" then
    match config_list config "females" females with
    | inl e => inl e
    | inr l => random_choice draw l
    end
  else inl (Raise (ValueError "Gender must be 'male' or 'female'")).

End Voices.

(** The sources the aggregator is to keep, said without the dict: for
    every URL, in the order of first occurrence, the last result that has
    it. *)
Definition retained_sources (l : list Utils.Source) : list Utils.Source :=
  omap (fun u => last_with_url u l) (first_occurrences (map Utils.url l)).

(** The raw content as it is to be shown under a budget: cut at four times
    the budget and marked when it is longer than that. *)
Definition shown_raw (max_tokens_per_source : Z) (s : Utils.Source) : string :=
  if (len (raw_text s) >? max_tokens_per_source * 4)%Z
  then slice_to (raw_text s) (max_tokens_per_source * 4) +:+ "... [truncated]"
  else raw_text s.

(** The entry of one source in the output, written out. *)
Definition block_text (max_tokens_per_source : Z) (include_raw_content : bool)
    (s : Utils.Source) : string :=
  "Source " +:+ Utils.title s +:+ ":" +:+ nl +:+ "===" +:+ nl
  +:+ "URL: " +:+ Utils.url s +:+ nl +:+ "===" +:+ nl
  +:+ "Most relevant content from source: " +:+ Utils.content s
  +:+ nl +:+ "===" +:+ nl
  +:+ (if include_raw_content
       then "Full source content limited to "
            +:+ str_of_int max_tokens_per_source +:+ " tokens: "
            +:+ shown_raw max_tokens_per_source s +:+ nl +:+ nl
       else "").

(** Whether a string is made of white space only. *)
Fixpoint all_space (s : string) : bool :=
  match s with
  | EmptyString => true
  | String c s' => isspace c && all_space s'
  end.

(** Whether a string occurs in another one. *)
Fixpoint occurs_in (needle hay : string) : bool :=
  String.prefix needle hay
  || match hay with
     | EmptyString => false
     | String _ rest => occurs_in needle rest
     end.

(* ===================================================================== *)
(** * Checks of the embedding on concrete inputs *)
(* ===================================================================== *)

Module Examples.
Import PodcastGenerator.

Example strip_example : strip ("  a b " +:+ nl) = "a b".
Proof. reflexivity. Qed.

Example slice_to_example :
  slice_to "abcdef" 4 = "abcd" /\ slice_to "abcdef" (-4) = "ab"
  /\ slice_to "abc" 10 = "abc" /\ slice_to "abc" (-10) = "".
Proof. repeat split; reflexivity. Qed.

Example join_example : join ", " ["a"; "b"; "c"] = "a, b, c".
Proof. reflexivity. Qed.

Example split_lines_example :
  split_lines ("a" +:+ nl +:+ "b" +:+ nl) = ["a"; "b"; ""].
Proof. reflexivity. Qed.

Example replace_example :
  replace "aXbXXc" "X" "" = "abc" /\ replace "aaa" "aa" "b" = "ba"
  /\ replace "ab" "" "-" = "-a-b-".
Proof. repeat split; reflexivity. Qed.

Example deduplicate_example :
  Utils.deduplicate_and_format_sources
    [Utils.mkResponse "q1"
       [Utils.mkSource "First" "http://a" "old" (Utils.RawStr "abcdefghij");
        Utils.mkSource "Second" "http://b" "other" Utils.RawNone];
     Utils.mkResponse "q2"
       [Utils.mkSource "First again" "http://a" "new" (Utils.RawStr "0123456789")]]
    2 true
  = "Sources:" +:+ nl +:+ nl
    +:+ "Source First again:" +:+ nl +:+ "===" +:+ nl
    +:+ "URL: http://a" +:+ nl +:+ "===" +:+ nl
    +:+ "Most relevant content from source: new" +:+ nl +:+ "===" +:+ nl
    +:+ "Full source content limited to 2 tokens: 01234567... [truncated]"
    +:+ nl +:+ nl
    +:+ "Source Second:" +:+ nl +:+ "===" +:+ nl
    +:+ "URL: http://b" +:+ nl +:+ "===" +:+ nl
    +:+ "Most relevant content from source: other" +:+ nl +:+ "===" +:+ nl
    +:+ "Full source content limited to 2 tokens:".
Proof. reflexivity. Qed.

Example format_segments_example :
  Utils.format_segments
    (fun _ => State.mkSegment "Intro" "30" "opening" false "") [0]
  = nl +:+ "           " +:+ repeat_str "=" 60 +:+ nl
    +:+ "           Segment 1: Intro" +:+ nl
    +:+ "           " +:+ repeat_str "=" 60 +:+ nl
    +:+ "           Duration: 30" +:+ nl
    +:+ "           Description: opening" +:+ nl
    +:+ "           Requires Research: False" +:+ nl
    +:+ nl
    +:+ "           Dialogue:" +:+ nl
    +:+ "           [Not yet written]" +:+ nl
    +:+ "       ".
Proof. reflexivity. Qed.

Example preprocess_example :
  preprocess_transcript
    ("**Ann:** Hello" +:+ nl +:+ nl +:+ "Narrator: skip" +:+ nl +:+ "Bob: Hi")
    "Ann" "Bob"
  = [mkEntry "host" "Hello"; mkEntry "guest" "Hi"].
Proof. reflexivity. Qed.

End Examples.

(* ===================================================================== *)
(** * Facts about the Python primitives *)
(* ===================================================================== *)

Lemma append_cons (x : ascii) (a b : string) :
  String x a +:+ b = String x (a +:+ b).
Proof. reflexivity. Qed.

Lemma append_empty_l (a : string) : "" +:+ a = a.
Proof. reflexivity. Qed.

Lemma append_assoc (a b c : string) : (a +:+ b) +:+ c = a +:+ (b +:+ c).
Proof.
  induction a as [|x a IH]; [reflexivity |].
  now rewrite !append_cons, IH.
Qed.

Lemma append_empty_r (a : string) : a +:+ "" = a.
Proof.
  induction a as [|x a IH]; [reflexivity |].
  now rewrite append_cons, IH.
Qed.

Lemma length_append (a b : string) :
  String.length (a +:+ b) = String.length a + String.length b.
Proof.
  induction a as [|x a IH]; [reflexivity |].
  rewrite append_cons. simpl. now rewrite IH.
Qed.

Lemma substring_0_length (n : nat) (s : string) :
  n <= String.length s -> String.length (String.substring 0 n s) = n.
Proof.
  revert s; induction n as [|n IH]; intros s Hn.
  - destruct s; reflexivity.
  - destruct s as [|c s]; simpl in *; [lia |].
    rewrite IH; [reflexivity | lia].
Qed.

Lemma substring_0_all (n : nat) (s : string) :
  String.length s <= n -> String.substring 0 n s = s.
Proof.
  revert s; induction n as [|n IH]; intros s Hn.
  - destruct s; simpl in *; [reflexivity | lia].
  - destruct s as [|c s]; simpl in *; [reflexivity |].
    rewrite IH; [reflexivity | lia].
Qed.

Lemma prefix_append (p s : string) : String.prefix p (p +:+ s) = true.
Proof.
  induction p as [|c p IH]; [now destruct s |].
  rewrite append_cons. simpl.
  destruct (ascii_dec c c); [exact IH | congruence].
Qed.

Lemma dict_get_set {V : Type} (d : dict V) (k k' : string) (v : V) :
  dict_get (dict_set d k v) k' = if String.eqb k k' then Some v else dict_get d k'.
Proof.
  induction d as [|[k0 v0] d IH]; simpl.
  - reflexivity.
  - destruct (String.eqb_spec k0 k) as [->|Hne]; simpl.
    + destruct (String.eqb k k'); reflexivity.
    + rewrite IH. destruct (String.eqb_spec k0 k') as [->|Hne'].
      * apply String.eqb_neq in Hne. rewrite String.eqb_sym in Hne.
        now rewrite Hne.
      * reflexivity.
Qed.

Lemma key_in_spec (k : string) (ks : list string) :
  key_in k ks = true <-> In k ks.
Proof.
  unfold key_in. rewrite existsb_exists. split.
  - intros (x & Hx & E). apply String.eqb_eq in E. now subst.
  - intros H. exists k. split; [exact H | apply String.eqb_refl].
Qed.

Lemma dict_keys_set {V : Type} (d : dict V) (k : string) (v : V) :
  dict_keys (dict_set d k v)
  = if key_in k (dict_keys d) then dict_keys d else dict_keys d ++ [k].
Proof.
  induction d as [|[k0 v0] d IH]; simpl.
  - reflexivity.
  - rewrite (String.eqb_sym k k0).
    destruct (String.eqb_spec k0 k) as [->|Hne]; simpl.
    + reflexivity.
    + unfold dict_keys in *. simpl. rewrite IH.
      now destruct (key_in k (map fst d)).
Qed.

(* ===================================================================== *)
(** * The source aggregator (utils.py) *)
(* ===================================================================== *)

Section Aggregator.
Import Utils.

Lemma sources_list_concat (responses : list SearchResponse) :
    sources_list responses = concat (map results responses).
Proof.
    unfold sources_list.
    assert (G : forall acc,
               foldl (fun acc r => acc ++ results r) acc responses
               = acc ++ concat (map results responses)).
    { induction responses as [|r rs IH]; intros acc; simpl.
      - now rewrite app_nil_r.
      - rewrite IH. now rewrite <- app_assoc. }
    apply (G []).
Qed.

Lemma add_source_block (m : Z) (inc : bool) (acc : string) (s : Source) :
    add_source m inc acc s = acc +:+ source_block m inc s.
Proof.
    unfold source_block, add_source.
    destruct inc; rewrite ?append_empty_l, ?append_assoc; reflexivity.
Qed.

Lemma fold_add_source (m : Z) (inc : bool) (l : list Source) (acc : string) :
    foldl (add_source m inc) acc l
    = acc +:+ concat_str (map (source_block m inc) l).
Proof.
    revert acc; induction l as [|s l IH]; intros acc; simpl.
    - now rewrite append_empty_r.
    - rewrite IH, add_source_block, append_assoc. reflexivity.
Qed.

  (** The output is the stripped header followed by one block per retained
      source. *)
Lemma deduplicate_and_format_sources_blocks
      (responses : list SearchResponse) (m : Z) (inc : bool) :
    deduplicate_and_format_sources responses m inc
    = strip (("Sources:" +:+ nl +:+ nl)
             +:+ concat_str
                   (map (source_block m inc)
                        (dict_values (unique_sources (sources_list responses))))).
Proof.
    unfold deduplicate_and_format_sources. now rewrite fold_add_source.
Qed.

  (** C9: on an empty list of responses, or on responses whose result lists
      are all empty, the aggregator retains no source and returns exactly
      the bare header [Sources:]. *)
Theorem C9_empty_input_bare_header
      (responses : list SearchResponse) (m : Z) (inc : bool) :
    Forall (fun r => results r = []) responses ->
    dict_values (unique_sources (sources_list responses)) = []
    /\ deduplicate_and_format_sources responses m inc = "Sources:".
Proof.
    intros Hempty.
    assert (E : sources_list responses = []).
    { rewrite sources_list_concat.
      induction Hempty as [|r rs Hr _ IH]; simpl; [reflexivity |].
      now rewrite Hr, IH. }
    split.
    - now rewrite E.
    - rewrite deduplicate_and_format_sources_blocks, E. reflexivity.
Qed.

Lemma C9_witness :
    Forall (fun r => results r = []) [mkResponse "q1" []; mkResponse "q2" []]
    /\ deduplicate_and_format_sources [] 500 true = "Sources:"
    /\ deduplicate_and_format_sources
         [mkResponse "q1" []; mkResponse "q2" []] 500 true = "Sources:".
Proof.
    split; [repeat constructor |].
    split.
    - apply (C9_empty_input_bare_header [] 500 true). constructor.
    - apply (C9_empty_input_bare_header
               [mkResponse "q1" []; mkResponse "q2" []] 500 true).
      repeat constructor.
Defined.

(** ** Truncation of the raw content *)

Lemma substring_0_prefix (n : nat) (s : string) :
  String.prefix (String.substring 0 n s) s = true.
Proof.
  revert s; induction n as [|n IH]; intros s.
  - destruct s; reflexivity.
  - destruct s as [|c s]; simpl; [reflexivity |].
    destruct (ascii_dec c c); [apply IH | congruence].
Qed.

(** ** Deduplication by URL *)

Lemma filter_filter_bool {A : Type} (p q : A -> bool) (l : list A) :
  List.filter p (List.filter q l) = List.filter (fun x => p x && q x) l.
Proof.
  induction l as [|x l IH]; simpl; [reflexivity |].
  destruct (q x) eqn:Q; simpl.
  - rewrite IH. now rewrite andb_true_r.
  - rewrite IH. now rewrite andb_false_r.
Qed.

Lemma filter_all {A : Type} (p : A -> bool) (l : list A) :
  (forall x, p x = true) -> List.filter p l = l.
Proof.
  intros H. induction l as [|x l IH]; simpl; [reflexivity |].
  now rewrite H, IH.
Qed.

Lemma key_in_app (k : string) (ks ks' : list string) :
  key_in k (ks ++ ks') = key_in k ks || key_in k ks'.
Proof. unfold key_in. apply existsb_app. Qed.

(** The keys of the dict after a run of insertions: the keys it had, then
    the new ones in the order of their first occurrence. *)
Lemma unique_sources_keys (l : list Source) (d : dict Source) :
  dict_keys (foldl (fun d s => dict_set d (url s) s) d l)
  = dict_keys d
    ++ List.filter (fun k => negb (key_in k (dict_keys d)))
         (first_occurrences (map url l)).
Proof.
  revert d; induction l as [|s l IH]; intros d; simpl.
  - now rewrite app_nil_r.
  - rewrite IH, dict_keys_set.
    destruct (key_in (url s) (dict_keys d)) eqn:K; simpl.
    + f_equal. rewrite filter_filter_bool. apply List.filter_ext.
      intros k. destruct (String.eqb_spec k (url s)) as [->|_]; simpl.
      * now rewrite K.
      * now rewrite andb_true_r.
    + rewrite <- app_assoc. simpl. f_equal. f_equal.
      rewrite filter_filter_bool. apply List.filter_ext.
      intros k. rewrite key_in_app, negb_orb. f_equal.
      unfold key_in. simpl. now rewrite orb_false_r.
Qed.

(** The value of a key after a run of insertions: the last source inserted
    under it, or the value it had. *)
Lemma unique_sources_get (l : list Source) (d : dict Source) (u : string) :
  dict_get (foldl (fun d s => dict_set d (url s) s) d l) u
  = match last_with_url u l with
    | Some s => Some s
    | None => dict_get d u
    end.
Proof.
  revert d; induction l as [|s l IH]; intros d; simpl; [reflexivity |].
  rewrite IH, dict_get_set.
  destruct (last_with_url u l); [reflexivity |].
  now destruct (String.eqb (url s) u).
Qed.

Lemma keyed_by_url_set (d : dict Source) (s : Source) :
  keyed_by_url d -> keyed_by_url (dict_set d (url s) s).
Proof.
  unfold keyed_by_url. induction d as [|[k v] d IH]; intros H; simpl.
  - now repeat constructor.
  - inversion H as [|? ? Hk Hd]; subst.
    destruct (String.eqb_spec k (url s)) as [->|_].
    + now constructor.
    + constructor; [exact Hk | now apply IH].
Qed.

Lemma keyed_by_url_fold (l : list Source) (d : dict Source) :
  keyed_by_url d ->
  keyed_by_url (foldl (fun d s => dict_set d (url s) s) d l).
Proof.
  revert d; induction l as [|s l IH]; intros d H; simpl; [exact H |].
  apply IH. now apply keyed_by_url_set.
Qed.

Lemma keyed_by_url_values (d : dict Source) :
  keyed_by_url d -> map url (dict_values d) = dict_keys d.
Proof.
  unfold keyed_by_url, dict_values, dict_keys.
  induction 1 as [|[k v] d Hk _ IH]; simpl in *; [reflexivity |].
  now rewrite IH, Hk.
Qed.

Lemma first_occurrences_In (k : string) (ks : list string) :
  In k (first_occurrences ks) <-> In k ks.
Proof.
  induction ks as [|k0 ks IH]; simpl; [reflexivity |].
  rewrite List.filter_In, IH.
  destruct (String.eqb_spec k k0) as [->|Hne]; simpl.
  - split; intros _; now left.
  - split.
    + intros [E | [H _]]; [now left | now right].
    + intros [E | H]; [now left | right; now split].
Qed.

Lemma first_occurrences_NoDup (ks : list string) :
  List.NoDup (first_occurrences ks).
Proof.
  induction ks as [|k ks IH]; simpl; [constructor |].
  constructor.
  - rewrite List.filter_In. intros [_ H].
    now rewrite String.eqb_refl in H.
  - now apply List.NoDup_filter.
Qed.

Lemma dict_get_of_entry {V : Type} (d : dict V) (k : string) (v : V) :
  List.NoDup (dict_keys d) -> In (k, v) d -> dict_get d k = Some v.
Proof.
  unfold dict_keys. induction d as [|[k0 v0] d IH]; simpl; intros Hnd Hin.
  - destruct Hin.
  - inversion Hnd as [|? ? Hk0 Hnd']; subst.
    destruct Hin as [E | Hin].
    + inversion E; subst. now rewrite String.eqb_refl.
    + destruct (String.eqb_spec k0 k) as [->|_]; [| now apply IH].
      exfalso. apply Hk0.
      change k with (fst (k, v)). now apply in_map.
Qed.

End Aggregator.

(* ===================================================================== *)
(** * Resolution of the configuration (configuration.py) *)
(* ===================================================================== *)

Section Resolution.
Import Config.

Lemma dict_get_absent {V : Type} (d : dict V) (k : string) :
  ~ In k (dict_keys d) -> dict_get d k = None.
Proof.
  unfold dict_keys. induction d as [|[k0 v0] d IH]; simpl; intros H.
  - reflexivity.
  - destruct (String.eqb_spec k0 k) as [->|_].
    + exfalso. apply H. now left.
    + apply IH. intros Hin. apply H. now right.
Qed.

Lemma dict_get_filter {V : Type} (p : V -> bool) (d : dict V) (k : string) :
  List.NoDup (dict_keys d) ->
  dict_get (List.filter (fun kv => p (snd kv)) d) k
  = match dict_get d k with
    | Some v => if p v then Some v else None
    | None => None
    end.
Proof.
  unfold dict_keys. induction d as [|[k0 v0] d IH]; simpl; intros Hnd.
  - reflexivity.
  - inversion Hnd as [|? ? Hk0 Hnd']; subst.
    destruct (String.eqb_spec k0 k) as [->|Hne].
    + destruct (p v0) eqn:P; simpl.
      * now rewrite String.eqb_refl.
      * rewrite (IH Hnd'). now rewrite (dict_get_absent d k Hk0).
    + destruct (p v0); simpl.
      * apply String.eqb_neq in Hne. rewrite Hne. now apply IH.
      * now apply IH.
Qed.

(** The [values] dict of [from_runnable_config]: one entry per field. *)
Lemma values_entries (env : environ) (conf : gmap string value) :
  foldl (fun d f =>
           dict_set d (field_name f)
             (environ_get env (upper (field_name f))
                (configurable_get conf (field_name f))))
        [] fields
  = map (fun f => (field_name f,
                   environ_get env (upper (field_name f))
                     (configurable_get conf (field_name f))))
        fields.
Proof. reflexivity. Qed.

Lemma field_names_NoDup : List.NoDup (map field_name fields).
Proof.
  repeat (constructor; [simpl; intuition discriminate |]). constructor.
Qed.

Lemma dict_get_fields (g : field -> value) (f : field) :
  dict_get (map (fun f => (field_name f, g f)) fields) (field_name f)
  = Some (g f).
Proof. destruct f; reflexivity. Qed.

Lemma getattr_cls (kwargs : dict value) (f : field) :
  getattr f (cls kwargs)
  = match dict_get kwargs (field_name f) with
    | Some v => v
    | None => default_of f
    end.
Proof. destruct f; reflexivity. Qed.

(** How one field is resolved. *)
Lemma from_runnable_config_field
    (env : environ) (config : option RunnableConfig) (f : field) :
  getattr f (from_runnable_config env config)
  = match env !! upper (field_name f) with
    | Some s => if String.eqb s "" then default_of f else VStr s
    | None =>
        match configurable_of config !! field_name f with
        | Some v => if truthy v then v else default_of f
        | None => default_of f
        end
    end.
Proof.
  unfold from_runnable_config.
  rewrite getattr_cls, values_entries, dict_get_filter.
  - rewrite (dict_get_fields
               (fun f => environ_get env (upper (field_name f))
                           (configurable_get (configurable_of config) (field_name f)))).
    unfold environ_get, configurable_get.
    destruct (env !! upper (field_name f)) as [s|]; simpl.
    + now destruct (String.eqb s "").
    + destruct (configurable_of config !! field_name f) as [v|]; simpl;
        [now destruct (truthy v) | reflexivity].
  - unfold dict_keys. rewrite map_map. simpl. apply field_names_NoDup.
Qed.

(** C7, as the code has it: for every field, the environment variable named
    by the upper-cased field name, when it is set to a non-empty string,
    is the value, whatever the per-call override says; when the variable is
    not set, a true per-call override is the value; in every other case
    (variable set to the empty string, or variable not set and the
    override absent or false) the value is the default of the dataclass. *)
Theorem C7_environment_then_override_then_default
    (env : environ) (config : option RunnableConfig) (f : field) :
  let resolved := getattr f (from_runnable_config env config) in
  let variable := env !! upper (field_name f) in
  let override := configurable_of config !! field_name f in
  (forall s, variable = Some s -> s <> "" -> resolved = VStr s)
  /\ (forall v, variable = None -> override = Some v -> truthy v = true ->
      resolved = v)
  /\ (variable = Some "" -> resolved = default_of f)
  /\ (variable = None ->
      override = None \/ (exists v, override = Some v /\ truthy v = false) ->
      resolved = default_of f).
Proof.
  intros resolved variable override. unfold resolved.
  rewrite from_runnable_config_field. fold variable override.
  split; [| split; [| split]].
  - intros s -> Hs. apply String.eqb_neq in Hs. now rewrite Hs.
  - intros v -> -> Hv. now rewrite Hv.
  - now intros ->.
  - intros -> [-> | (v & -> & Hv)]; [reflexivity | now rewrite Hv].
Qed.

(** The settings of the example: the variable MAX_SEARCH_DEPTH is set and
    the per-call override gives another depth. *)
Lemma C7_witness :
  let env : environ := {[ "MAX_SEARCH_DEPTH" := "9" ]} in
  let config :=
    Some (mkRunnableConfig (Some {[ "max_search_depth" := VInt 2 ]}) []) in
  getattr fld_max_search_depth (from_runnable_config env config) = VStr "9"
  /\ getattr fld_max_search_depth (from_runnable_config ∅ config) = VInt 2
  /\ getattr fld_max_search_depth (from_runnable_config ∅ None) = VInt 4.
Proof.
  intros env config. split; [| split].
  - destruct (C7_environment_then_override_then_default
                env config fld_max_search_depth) as (H & _).
    apply H; [reflexivity | discriminate].
  - destruct (C7_environment_then_override_then_default
                ∅ config fld_max_search_depth) as (_ & H & _).
    apply H; reflexivity.
  - destruct (C7_environment_then_override_then_default
                ∅ None fld_max_search_depth) as (_ & _ & _ & H).
    apply H; [reflexivity | now left].
Defined.

(** The precedence as the specification words it (a true per-call override
    beats the environment) fails: with MAX_SEARCH_DEPTH set to 9 and an
    override of 2, the resolved depth is the string of the environment. *)
Lemma C7_override_does_not_beat_environment :
  ~ (forall (env : environ) (conf : gmap string value) (f : field) (v : value),
        conf !! field_name f = Some v -> truthy v = true ->
        getattr f (from_runnable_config env (Some (mkRunnableConfig (Some conf) [])))
        = v).
Proof.
  intros H.
  specialize (H {[ "MAX_SEARCH_DEPTH" := "9" ]}
                {[ "max_search_depth" := VInt 2 ]}
                fld_max_search_depth (VInt 2) eq_refl eq_refl).
  rewrite from_runnable_config_field in H. discriminate H.
Qed.

End Resolution.

(* ===================================================================== *)
(** * The transcript compiler (graph.py) *)
(* ===================================================================== *)

Section Compiler.
Import State Graph.

Lemma title_set_dialogue (h : store) (r r' : loc) (d : string) :
  title (set_dialogue h r d r') = title (h r').
Proof.
  unfold set_dialogue. destruct (Nat.eqb_spec r' r) as [->|_]; reflexivity.
Qed.

Lemma set_dialogue_same (h : store) (r : loc) (d : string) :
  dialogue (set_dialogue h r d r) = d.
Proof. unfold set_dialogue. now rewrite Nat.eqb_refl. Qed.

Lemma set_dialogue_other (h : store) (r r' : loc) (d : string) :
  r' <> r -> set_dialogue h r d r' = h r'.
Proof.
  intros H. unfold set_dialogue. apply Nat.eqb_neq in H. now rewrite H.
Qed.

(** The dict built from the accumulator maps a title to the dialogue of the
    last accumulated segment with that title. *)
Lemma title_dialogue_map_fold (h : store) (completed : list loc)
    (m : gmap string string) (t : string) :
  foldl (fun m s => <[title (h s) := dialogue (h s)]> m) m completed !! t
  = match last_dialogue h t completed with
    | Some d => Some d
    | None => m !! t
    end.
Proof.
  revert m; induction completed as [|s rest IH]; intros m; simpl.
  - reflexivity.
  - rewrite IH. destruct (last_dialogue h t rest); [reflexivity |].
    destruct (String.eqb_spec (title (h s)) t) as [<-|Hne].
    + apply lookup_insert_eq.
    + now apply lookup_insert_ne.
Qed.

Lemma title_dialogue_map_lookup (h : store) (completed : list loc) (t : string) :
  title_dialogue_map h completed !! t = last_dialogue h t completed.
Proof.
  unfold title_dialogue_map. rewrite title_dialogue_map_fold.
  now destruct (last_dialogue h t completed).
Qed.

Lemma last_dialogue_None (h : store) (t : string) (completed : list loc) :
  last_dialogue h t completed = None <-> ~ In t (titles h completed).
Proof.
  unfold titles. induction completed as [|s rest IH]; simpl.
  - tauto.
  - destruct (last_dialogue h t rest) eqn:E.
    + split; [discriminate |]. intros H. exfalso.
      assert (N : ~ In t (map (fun s => title (h s)) rest)) by tauto.
      apply IH in N. discriminate.
    + destruct (String.eqb_spec (title (h s)) t) as [Heq|Hne].
      * split; [discriminate | tauto].
      * split; [| reflexivity]. intros _ [F|F]; [easy |].
        destruct IH as [IH _]. now apply IH.
Qed.

Lemma last_dialogue_Some (h : store) (t : string) (completed : list loc) :
  In t (titles h completed) -> exists d, last_dialogue h t completed = Some d.
Proof.
  intros H. destruct (last_dialogue h t completed) as [d|] eqn:E.
  - now exists d.
  - apply last_dialogue_None in E. contradiction.
Qed.

(** The [missing] list of the compiler, read off the titles. *)
Lemma missing_titles_filter (h : store) (completed segments : list loc) :
  missing_titles h (title_dialogue_map h completed) segments
  = List.filter (fun t => negb (key_in t (titles h completed)))
      (titles h segments).
Proof.
  unfold missing_titles, titles.
  induction segments as [|s rest IH]; simpl; [reflexivity |].
  rewrite title_dialogue_map_lookup.
  destruct (last_dialogue h (title (h s)) completed) as [d|] eqn:E.
  - assert (K : key_in (title (h s)) (map (fun s => title (h s)) completed) = true).
    { apply key_in_spec.
      destruct (in_dec string_dec (title (h s))
                  (map (fun s => title (h s)) completed)) as [Hin|Hout];
        [exact Hin |].
      apply last_dialogue_None in Hout. congruence. }
    rewrite K. simpl. exact IH.
  - assert (K : key_in (title (h s)) (map (fun s => title (h s)) completed) = false).
    { apply last_dialogue_None in E.
      destruct (key_in _ _) eqn:K; [| reflexivity].
      apply key_in_spec in K. contradiction. }
    rewrite K. simpl. now rewrite IH.
Qed.



(** ** Assembling the transcript *)

Lemma filter_none {A : Type} (p : A -> bool) (l : list A) :
  (forall x, In x l -> p x = false) -> List.filter p l = [].
Proof.
  induction l as [|x l IH]; intros H; simpl; [reflexivity |].
  rewrite (H x (or_introl eq_refl)). apply IH.
  intros y Hy. apply H. now right.
Qed.

Lemma assign_dialogues_spec (m : gmap string string) (segments : list loc) :
  forall h : store,
    (forall s, In s segments -> is_Some (m !! title (h s))) ->
    exists h' : store,
      assign_dialogues m h segments = inr h'
      /\ (forall r, title (h' r) = title (h r))
      /\ (forall r, In r segments -> m !! title (h r) = Some (dialogue (h' r)))
      /\ (forall r, ~ In r segments -> h' r = h r).
Proof.
  induction segments as [|s rest IH]; intros h Hpresent; simpl.
  - exists h. repeat split; try reflexivity. intros r [].
  - destruct (Hpresent s (or_introl eq_refl)) as [d Hd]. rewrite Hd.
    destruct (IH (set_dialogue h s d)) as (h' & Hrun & Htitle & Hin & Hout).
    { intros s' Hs'. rewrite title_set_dialogue. apply Hpresent. now right. }
    exists h'. split; [exact Hrun |]. split; [| split].
    + intros r. now rewrite Htitle, title_set_dialogue.
    + intros r Hr.
      destruct (in_dec Nat.eq_dec r rest) as [Hrest|Hrest].
      * specialize (Hin r Hrest). now rewrite title_set_dialogue in Hin.
      * destruct Hr as [->|Hr]; [| contradiction].
        rewrite (Hout r Hrest), set_dialogue_same. exact Hd.
    + intros r Hr. rewrite Hout by tauto.
      apply set_dialogue_other. intros ->. apply Hr. now left.
Qed.

Lemma last_dialogue_In (h : store) (t d : string) (completed : list loc) :
  last_dialogue h t completed = Some d ->
  exists s, In s completed /\ title (h s) = t /\ dialogue (h s) = d.
Proof.
  induction completed as [|s rest IH]; simpl; [discriminate |].
  destruct (last_dialogue h t rest) as [d'|].
  - intros E. inversion E; subst.
    destruct (IH eq_refl) as (s' & Hs' & Ht & Hd).
    exists s'. tauto.
  - destruct (String.eqb_spec (title (h s)) t) as [Heq|_]; [| discriminate].
    intros E. inversion E; subst. exists s. tauto.
Qed.

(** When equal titles carry equal dialogues, the dict does not depend on
    the order of the accumulator. *)
Lemma title_dialogue_map_Permutation (h : store) (completed completed' : list loc) :
  Permutation completed completed' ->
  (forall a b, In a completed -> In b completed ->
               title (h a) = title (h b) -> dialogue (h a) = dialogue (h b)) ->
  title_dialogue_map h completed' = title_dialogue_map h completed.
Proof.
  intros Hperm Hfun. apply map_eq. intros t.
  rewrite !title_dialogue_map_lookup.
  destruct (last_dialogue h t completed) as [d|] eqn:E.
  - apply last_dialogue_In in E as (s & Hs & Ht & Hd).
    destruct (last_dialogue_Some h t completed') as [d' E'].
    { unfold titles. rewrite <- Ht.
      apply in_map with (f := fun s => title (h s)).
      now apply (Permutation_in _ Hperm). }
    rewrite E'. f_equal.
    apply last_dialogue_In in E' as (s' & Hs' & Ht' & Hd').
    rewrite <- Hd, <- Hd'. apply Hfun.
    + now apply (Permutation_in _ (Permutation_sym Hperm)).
    + exact Hs.
    + congruence.
  - apply last_dialogue_None. apply last_dialogue_None in E.
    intros Hin. apply E. unfold titles in *.
    apply in_map_iff in Hin as (s & Ht & Hs).
    apply in_map_iff. exists s. split; [exact Ht |].
    now apply (Permutation_in _ (Permutation_sym Hperm)).
Qed.

(** With every planned title in the accumulator the compiler succeeds, and
    each planned segment ends up with the dialogue found under its title. *)
Lemma compile_final_transcript_present (h : store) (segments completed : list loc) :
  (forall s, In s segments -> In (title (h s)) (titles h completed)) ->
  exists h' : store,
    compile_final_transcript h segments completed
    = inr (h', join (nl +:+ nl) (map (fun s => dialogue (h' s)) segments))
    /\ (forall r, In r segments ->
                  last_dialogue h (title (h r)) completed = Some (dialogue (h' r))).
Proof.
  intros Hpresent.
  destruct (assign_dialogues_spec (title_dialogue_map h completed) segments h)
    as (h' & Hrun & Htitle & Hin & _).
  { intros s Hs. rewrite title_dialogue_map_lookup.
    destruct (last_dialogue_Some h (title (h s)) completed (Hpresent s Hs))
      as [d ->]. now exists d. }
  exists h'. split.
  - unfold compile_final_transcript. rewrite missing_titles_filter.
    rewrite filter_none.
    + rewrite Hrun. reflexivity.
    + intros t Ht. unfold titles in Ht.
      apply in_map_iff in Ht as (s & <- & Hs).
      apply negb_false_iff, key_in_spec. now apply Hpresent.
  - intros r Hr. rewrite <- title_dialogue_map_lookup. now apply Hin.
Qed.

(** A compilation that succeeds had every planned title in the
    accumulator. *)
Lemma compile_final_transcript_success (h h' : store)
    (segments completed : list loc) (transcript : string) :
  compile_final_transcript h segments completed = inr (h', transcript) ->
  forall s, In s segments -> In (title (h s)) (titles h completed).
Proof.
  unfold compile_final_transcript. rewrite missing_titles_filter.
  destruct (List.filter _ _) as [|t0 rest] eqn:E; [| discriminate].
  intros _ s Hs.
  destruct (in_dec string_dec (title (h s)) (titles h completed)) as [Hin|Hout];
    [exact Hin | exfalso].
  assert (F : In (title (h s))
                (List.filter (fun t => negb (key_in t (titles h completed)))
                   (titles h segments))).
  { apply List.filter_In. split.
    - unfold titles. now apply in_map with (f := fun s => title (h s)).
    - apply negb_true_iff. destruct (key_in _ _) eqn:K; [| reflexivity].
      apply key_in_spec in K. contradiction. }
  rewrite E in F. destruct F.
Qed.

(** C4: when every planned title is in the accumulator, the compiler
    succeeds; the transcript is the dialogues found under the planned
    titles, in plan order, joined by one blank line; and an accumulator
    with the same segments in another order gives the same result as long
    as equal titles carry equal dialogues. The compiler takes no capability,
    hence makes no generation call. *)
Theorem C4_transcript_in_plan_order (h : store) (segments completed : list loc) :
  (forall s, In s segments -> In (title (h s)) (titles h completed)) ->
  exists (h' : store) (blocks : list string),
    compile_final_transcript h segments completed
    = inr (h', join (nl +:+ nl) blocks)
    /\ Forall2 (fun s d => last_dialogue h (title (h s)) completed = Some d
                           /\ dialogue (h' s) = d)
         segments blocks
    /\ (forall completed',
          Permutation completed completed' ->
          (forall a b, In a completed -> In b completed ->
                       title (h a) = title (h b) -> dialogue (h a) = dialogue (h b)) ->
          compile_final_transcript h segments completed'
          = compile_final_transcript h segments completed).
Proof.
  intros Hpresent.
  destruct (compile_final_transcript_present h segments completed Hpresent)
    as (h' & Hrun & Hin).
  exists h', (map (fun s => dialogue (h' s)) segments).
  split; [exact Hrun |]. split.
  - clear Hrun Hpresent. induction segments as [|s rest IH]; simpl; constructor.
    + split; [| reflexivity]. apply Hin. now left.
    + apply IH. intros r Hr. apply Hin. now right.
  - intros completed' Hperm Hfun. unfold compile_final_transcript.
    now rewrite (title_dialogue_map_Permutation h completed completed').
Qed.

(** The plan of the specification, [Intro, T1, T2, Outro], with the
    accumulator filled in the order [T2, Intro, Outro, T1]. *)
Lemma C4_witness :
  let h := store_of [mkSegment "Intro" "30" "opening" false "i";
                     mkSegment "T1" "300" "first topic" true "one";
                     mkSegment "T2" "300" "second topic" true "two";
                     mkSegment "Outro" "30" "closing" false "o"] in
  exists h',
    compile_final_transcript h [0; 1; 2; 3] [2; 0; 3; 1]
    = inr (h', "i" +:+ nl +:+ nl +:+ "one" +:+ nl +:+ nl +:+ "two"
               +:+ nl +:+ nl +:+ "o").
Proof.
  intros h.
  destruct (C4_transcript_in_plan_order h [0; 1; 2; 3] [2; 0; 3; 1])
    as (h' & blocks & Hrun & Hblocks & _).
  { simpl. intros s [<- | [<- | [<- | [<- | []]]]]; simpl; tauto. }
  exists h'. rewrite Hrun. do 2 f_equal.
  repeat match goal with
         | H : Forall2 _ _ _ |- _ => inversion H; subst; clear H
         end.
  repeat match goal with
         | H : _ /\ _ |- _ => destruct H as [H _]
         end.
  simpl in *.
  repeat match goal with
         | H : Some _ = Some _ |- _ => inversion H; subst; clear H
         end.
  reflexivity.
Defined.

End Compiler.

(* ===================================================================== *)
(** * The accumulator of completed segments (state.py, graph.py) *)
(* ===================================================================== *)

Section Accumulator.
Import State Graph.

Lemma title_dialogue_map_snoc (h : store) (acc : list loc) (s : loc) :
  title_dialogue_map h (acc ++ [s])
  = <[title (h s) := dialogue (h s)]> (title_dialogue_map h acc).
Proof. unfold title_dialogue_map. now rewrite foldl_snoc. Qed.

(** C5, as the code has it: the merge appends. Merging two finished
    segments in either order gives accumulators that hold the same
    segments (one is a permutation of the other) and that keep every merged
    segment, so a repeated title is held twice. What the transcript
    compiler reads from them agrees when the two titles differ: the dict
    from title to dialogue is the same, hence so is the compiled result.
    Under a title, that dict holds the dialogue of the segment merged
    last. *)
Theorem C5_merge_appends_and_title_lookup_agrees
    (h : store) (acc : list loc) (a b : loc) :
  let ab := operator_add (operator_add acc [a]) [b] in
  let ba := operator_add (operator_add acc [b]) [a] in
  ab = acc ++ [a; b]
  /\ Permutation ab ba
  /\ length ab = length acc + 2
  /\ title_dialogue_map h ab !! title (h b) = Some (dialogue (h b))
  /\ (title (h a) <> title (h b) ->
      title_dialogue_map h ab = title_dialogue_map h ba
      /\ forall segments,
           compile_final_transcript h segments ab
           = compile_final_transcript h segments ba).
Proof.
  intros ab ba. unfold ab, ba, operator_add.
  split; [now rewrite <- app_assoc |].
  split.
  { rewrite <- !app_assoc. apply Permutation_app_head. simpl. constructor. }
  split; [rewrite !length_app; simpl; lia |].
  split; [rewrite title_dialogue_map_snoc; apply lookup_insert_eq |].
  intros Hne.
  assert (E : title_dialogue_map h ((acc ++ [a]) ++ [b])
              = title_dialogue_map h ((acc ++ [b]) ++ [a])).
  { rewrite !title_dialogue_map_snoc. apply insert_insert_ne. congruence. }
  split; [exact E |].
  intros segments. unfold compile_final_transcript. now rewrite E.
Qed.

Lemma C5_witness :
  let h := store_of [mkSegment "A" "60" "first" true "a";
                     mkSegment "B" "60" "second" true "b"] in
  title_dialogue_map h (operator_add (operator_add [] [0]) [1])
  = title_dialogue_map h (operator_add (operator_add [] [1]) [0]).
Proof.
  intros h.
  destruct (C5_merge_appends_and_title_lookup_agrees h [] 0 1)
    as (_ & _ & _ & _ & H).
  apply H. simpl. discriminate.
Defined.

(** The merge is not the order-independent union by title of the
    specification: with two segments of distinct titles the two orders give
    different accumulators, and the rendering of the accumulator that the
    intro/outro stage puts in its prompt differs with them; merging a
    segment whose title is already held keeps both. *)
Lemma C5_merge_order_is_observable :
  let h := store_of [mkSegment "A" "60" "first" true "a";
                     mkSegment "B" "60" "second" true "b";
                     mkSegment "A" "60" "first" true "again"] in
  title (h 0) <> title (h 1)
  /\ operator_add (operator_add [] [0]) [1]
     <> operator_add (operator_add [] [1]) [0]
  /\ Utils.format_segments h (operator_add (operator_add [] [0]) [1])
     <> Utils.format_segments h (operator_add (operator_add [] [1]) [0])
  /\ title (h 0) = title (h 2)
  /\ operator_add (operator_add [] [0]) [2] = [0; 2].
Proof.
  intros h. split; [simpl; discriminate |].
  split; [simpl; discriminate |].
  split; [| split; reflexivity].
  vm_compute. discriminate.
Qed.

End Accumulator.

(* ===================================================================== *)
(** * The segment research sub-workflow (graph.py) *)
(* ===================================================================== *)

(** Runs the sequencing of a computation whose head has a known result. *)
Ltac step_bind :=
  cbv beta iota delta [Graph.bind Graph.state_get Graph.config_getattr Graph.int_ge].

Tactic Notation "step_bind" "in" hyp(H) :=
  cbv beta iota delta [Graph.bind Graph.state_get Graph.config_getattr Graph.int_ge]
    in H.

Section Research.
Import State Config Graph.

Variable cap : Capabilities.
Variable env : environ.

(** What [write_dialogue] does once its inputs are there: the draft is
    stored in the segment, and the grade decides between acceptance and the
    failing attribute access on the config dict. *)
Lemma write_dialogue_outcome (round : nat) (h : store) (state : SegmentState)
    (config : RunnableConfig) (source model provider : string) :
  source_str state = Some source ->
  Utils.get_config_value
    (cfg_writer_model (from_runnable_config env (Some config))) = inr model ->
  Utils.get_config_value
    (cfg_writer_provider (from_runnable_config env (Some config))) = inr provider ->
  let draft :=
    chat cap round model provider
      (dialogue_writer_instructions (description (h (segment state))) source
         (host state) (guest state)) in
  let feedback :=
    structured_feedback cap round model provider
      (transcript_optimizer_instructions draft) in
  write_dialogue cap env round h state config
  = match grade feedback with
    | pass => inr (set_dialogue h (segment state) draft, goto_END [segment state])
    | fail =>
        inl (AttributeError "'dict' object has no attribute 'max_search_depth'")
    end.
Proof.
  intros Hsource Hmodel Hprovider draft feedback.
  unfold write_dialogue. rewrite Hsource. step_bind.
  rewrite Hmodel. step_bind. rewrite Hprovider. step_bind.
  rewrite set_dialogue_same. fold draft. fold feedback.
  destruct (grade feedback); reflexivity.
Qed.

(** [write_dialogue] never asks for another search round. *)
Lemma write_dialogue_never_revises (round : nat) (h h' : store)
    (state : SegmentState) (config : RunnableConfig)
    (queries : list SearchQuery) (s : loc) :
  write_dialogue cap env round h state config
  <> inr (h', goto_search_web queries s).
Proof.
  unfold write_dialogue.
  destruct (source_str state) as [source|]; step_bind; [| discriminate].
  destruct (Utils.get_config_value _) as [e|model]; step_bind; [discriminate |].
  destruct (Utils.get_config_value _) as [e|provider]; step_bind; [discriminate |].
  destruct (grade _); step_bind; discriminate.
Qed.

(** One round decides a run: more fuel changes nothing. *)
Lemma research_rounds_one_round (fuel round : nat) (h : store)
    (state : SegmentState) (config : RunnableConfig) :
  research_rounds cap env (S fuel) round h state config
  = research_rounds cap env 1 round h state config.
Proof.
  simpl.
  destruct (search_web cap env state (Some config)) as [e|[source n]];
    [reflexivity |].
  destruct (write_dialogue cap env round h _ config) as [e|[h' [c|q s]]] eqn:W;
    try reflexivity.
  exfalso. exact (write_dialogue_never_revises _ _ _ _ _ _ _ W).
Qed.

(** A run that reaches END has searched exactly once. *)
Lemma accepted_after_one_search (fuel : nat) (h h' : store)
    (state state' : SegmentState) (config : RunnableConfig) (completed : list loc) :
  build_segment_with_research cap env fuel h state config
  = Some (inr (h', state', completed)) ->
  search_iterations state' = (search_iterations state + 1)%Z
  /\ completed = [segment state].
Proof.
  unfold build_segment_with_research.
  destruct (generate_queries cap env h state (Some config)) as [e|queries];
    [discriminate |].
  destruct fuel as [|fuel]; [discriminate |].
  rewrite research_rounds_one_round. simpl.
  destruct (search_web cap env _ (Some config)) as [e|[source n]] eqn:S;
    [discriminate |].
  destruct (write_dialogue cap env 0 h _ config) as [e|[h1 [c|q s]]] eqn:W;
    try discriminate.
  intros E. inversion E; subst; clear E. simpl.
  unfold search_web in S. simpl in S.
  destruct (Utils.get_config_value _) as [e|api]; [discriminate |].
  step_bind. simpl in S.
  destruct (tavily_search_async cap _) as [e|results]; [discriminate |].
  inversion S; subst; clear S. split; [reflexivity |].
  unfold write_dialogue in W. simpl in W.
  destruct (Utils.get_config_value _) as [e|model]; [discriminate |].
  simpl in W.
  destruct (Utils.get_config_value _) as [e|provider]; [discriminate |].
  simpl in W.
  destruct (grade _); simpl in W; [| discriminate].
  now inversion W.
Qed.

(** C1, where the code departs from it: with a working configuration and a
    search that succeeds, a sub-workflow whose first draft is graded fail
    does not reach END. The test of the maximum depth reads an attribute
    of the config dict, which raises, whatever depth is configured and
    however much fuel the run is given. *)
Theorem C1_failed_draft_raises_at_depth_test
    (fuel : nat) (h : store) (s : loc) (host guest : string)
    (config : RunnableConfig) (model provider api : string) :
  let configurable := from_runnable_config env (Some config) in
  Utils.get_config_value (cfg_writer_model configurable) = inr model ->
  Utils.get_config_value (cfg_writer_provider configurable) = inr provider ->
  Utils.get_config_value (cfg_search_api configurable) = inr api ->
  (forall queries, exists results, tavily_search_async cap queries = inr results) ->
  (forall p, grade (structured_feedback cap 0 model provider p) = fail) ->
  build_segment_with_research cap env (S fuel) h (dispatched s host guest) config
  = Some (inl (AttributeError "'dict' object has no attribute 'max_search_depth'")).
Proof.
  intros configurable Hmodel Hprovider Hapi Hsearch Hfail.
  unfold build_segment_with_research, generate_queries.
  fold configurable. rewrite Hprovider. step_bind. rewrite Hmodel. step_bind.
  rewrite research_rounds_one_round.
  unfold research_rounds, search_web. fold configurable.
  cbn [search_queries dispatched segment search_iterations source_str
       State.host State.guest].
  step_bind. rewrite Hapi. step_bind.
  destruct (Hsearch (map search_query
                       (structured_queries cap model provider
                          (query_writer_instructions
                             (description (h s))
                             (cfg_number_of_queries configurable)))))
    as [results ->].
  erewrite write_dialogue_outcome; [| reflexivity | exact Hmodel | exact Hprovider].
  cbn [segment State.host State.guest]. now rewrite Hfail.
Qed.

(** The other branch: a first draft graded pass ends the run after one
    search, with the segment as the update of the accumulator. *)
Lemma passed_draft_is_accepted
    (fuel : nat) (h : store) (s : loc) (host guest : string)
    (config : RunnableConfig) (model provider api : string) :
  let configurable := from_runnable_config env (Some config) in
  Utils.get_config_value (cfg_writer_model configurable) = inr model ->
  Utils.get_config_value (cfg_writer_provider configurable) = inr provider ->
  Utils.get_config_value (cfg_search_api configurable) = inr api ->
  (forall queries, exists results, tavily_search_async cap queries = inr results) ->
  (forall p, grade (structured_feedback cap 0 model provider p) = pass) ->
  exists h' state',
    build_segment_with_research cap env (S fuel) h (dispatched s host guest) config
    = Some (inr (h', state', [s]))
    /\ search_iterations state' = 1%Z.
Proof.
  intros configurable Hmodel Hprovider Hapi Hsearch Hpass.
  unfold build_segment_with_research, generate_queries.
  fold configurable. rewrite Hprovider. step_bind. rewrite Hmodel. step_bind.
  rewrite research_rounds_one_round.
  unfold research_rounds, search_web. fold configurable.
  cbn [search_queries dispatched segment search_iterations source_str
       State.host State.guest].
  step_bind. rewrite Hapi. step_bind.
  destruct (Hsearch (map search_query
                       (structured_queries cap model provider
                          (query_writer_instructions
                             (description (h s))
                             (cfg_number_of_queries configurable)))))
    as [results ->].
  erewrite write_dialogue_outcome; [| reflexivity | exact Hmodel | exact Hprovider].
  cbn [segment State.host State.guest]. rewrite Hpass.
  eexists _, _. split; reflexivity.
Qed.

End Research.

(** The configured depth is 4 and every draft is graded fail. *)
Lemma C1_witness :
  Graph.build_segment_with_research (example_capabilities State.fail) ∅ 10
    (store_of [State.mkSegment "Basics" "300" "the basics" true ""])
    (dispatched 0 "Ann" "Bob") (config_with_depth 4)
  = Some (inl (AttributeError "'dict' object has no attribute 'max_search_depth'")).
Proof.
  apply (C1_failed_draft_raises_at_depth_test
           (example_capabilities State.fail) ∅ 9 _ 0 "Ann" "Bob"
           (config_with_depth 4)
           "claude-3-5-sonnet-latest" "anthropic" "tavily");
    try reflexivity.
  intros queries. now exists [].
Defined.

(* ===================================================================== *)
(** * The intro/outro stage (graph.py) *)
(* ===================================================================== *)

Section IntroOutro.
Import State Config Graph.

Variable cap : Capabilities.
Variable env : environ.

Lemma segment_eqb_eq (a b : PodcastSegment) : segment_eqb a b = true <-> a = b.
Proof.
  unfold segment_eqb. destruct a, b; simpl.
  rewrite !andb_true_iff, !String.eqb_eq, Bool.eqb_true_iff.
  split.
  - intros ((((-> & ->) & ->) & ->) & ->). reflexivity.
  - intros E. inversion E. tauto.
Qed.

(** Membership in a list of segments is equality of whole objects. *)
Lemma py_in_spec (h : store) (x : loc) (xs : list loc) :
  py_in h x xs = true <-> exists e, In e xs /\ h e = h x.
Proof.
  unfold py_in. rewrite existsb_exists. split.
  - intros (e & He & H). exists e. split; [exact He |].
    apply orb_true_iff in H as [H | H].
    + apply Nat.eqb_eq in H. now subst.
    + now apply segment_eqb_eq.
  - intros (e & He & H). exists e. split; [exact He |].
    apply orb_true_iff. right. now apply segment_eqb_eq.
Qed.

Lemma py_in_member (h : store) (x : loc) (xs : list loc) :
  In x xs -> py_in h x xs = true.
Proof. intros H. apply py_in_spec. now exists x. Qed.

Lemma find_titled_Some (h : store) (name : string) (segments : list loc) (r : loc) :
  find_titled h name segments = Some r ->
  In r segments /\ lower (title (h r)) = name.
Proof.
  unfold find_titled. intros H. apply List.find_some in H as [Hin Heq].
  split; [exact Hin | now apply String.eqb_eq].
Qed.

(** Every dispatch of the planning stage starts a sub-workflow on a
    research segment with no search made yet. *)
Lemma plan_dispatches (h : store) (topic host_name guest_name : string)
    (config : option RunnableConfig) (sends : list Send) (update : PlanUpdate) :
  generate_podcast_plan cap env h topic host_name guest_name config
  = inr (sends, update) ->
  forall d, In d sends ->
    exists s, In s (plan_segments update) /\ research (h s) = true
              /\ arg d = dispatched s host_name guest_name.
Proof.
  intros Hplan d Hd. unfold generate_podcast_plan in Hplan.
  destruct (Utils.get_config_value _) as [e|model]; [discriminate |].
  step_bind in Hplan.
  destruct (Utils.get_config_value _) as [e|provider]; [discriminate |].
  step_bind in Hplan.
  destruct (tavily_search_async cap _) as [e|results]; [discriminate |].
  step_bind in Hplan.
  inversion Hplan; subst; clear Hplan.
  apply in_map_iff in Hd as (s & <- & Hs).
  apply List.filter_In in Hs as [Hs Hr].
  exists s. repeat split; assumption.
Qed.

(** A writing step leaves alone every segment but its target, and a target
    that is in the accumulator as well. *)
Lemma write_final_segment_frame (call : nat) (model provider kind episode : string)
    (completed : list loc) (target : option loc) (h : store) (new : list loc)
    (r : loc) :
  target <> Some r \/ In r completed ->
  let '(h', new') :=
    write_final_segment cap call model provider kind episode completed target
      (h, new) in
  h' r = h r /\ (~ In r new -> ~ In r new')
  /\ exists added, new' = new ++ added.
Proof.
  intros Hr. unfold write_final_segment.
  destruct target as [s|].
  - destruct (py_in h s completed) eqn:P; simpl.
    + split; [reflexivity |]. split; [tauto |]. exists []. now rewrite app_nil_r.
    + assert (Hne : r <> s).
      { intros ->. destruct Hr as [Hr | Hr]; [congruence |].
        apply (py_in_member h) in Hr. congruence. }
      split; [now apply set_dialogue_other |].
      split; [| now exists [s]].
      intros Hnew Hin. apply in_app_or in Hin as [Hin | [Hin | []]];
        [contradiction | congruence].
  - split; [reflexivity |]. split; [tauto |]. exists []. now rewrite app_nil_r.
Qed.

End IntroOutro.


(* ===================================================================== *)
(** * Transcript preprocessing (podcast_generator.py) *)
(* ===================================================================== *)

Section Preprocessing.
Import PodcastGenerator.

Lemma add_line_entry (host_name guest_name : string) (conversations : list Entry)
    (line : string) :
  add_line host_name guest_name conversations line
  = conversations
    ++ match entry_of_line host_name guest_name line with
       | Some entry => [entry]
       | None => []
       end.
Proof.
  unfold entry_of_line, add_line.
  destruct (String.eqb (strip line) ""); [now rewrite app_nil_r |].
  destruct (startswith (strip line) (host_name +:+ ":")); [reflexivity |].
  destruct (startswith (strip line) (guest_name +:+ ":")); [reflexivity |].
  now rewrite app_nil_r.
Qed.

Lemma fold_add_line (host_name guest_name : string) (lines : list string)
    (conversations : list Entry) :
  foldl (add_line host_name guest_name) conversations lines
  = conversations ++ omap (entry_of_line host_name guest_name) lines.
Proof.
  revert conversations; induction lines as [|line lines IH];
    intros conversations; simpl.
  - now rewrite app_nil_r.
  - rewrite IH, add_line_entry, <- app_assoc. f_equal.
    now destruct (entry_of_line host_name guest_name line).
Qed.

(** Passing over the rest of an occurrence. *)
Lemma replace_from_skip (old new p s : string) :
  replace_from old new (String.length p) (p +:+ s) = replace_from old new 0 s.
Proof.
  induction p as [|c p IH]; [now destruct s |].
  rewrite append_cons. simpl. exact IH.
Qed.

Lemma replace_from_cons (old new : string) (c : ascii) (s : string) :
  replace_from old new 0 (String c s)
  = if String.prefix old (String c s)
    then new +:+ replace_from old new (String.length old - 1) s
    else String c (replace_from old new 0 s).
Proof. reflexivity. Qed.

(** [replace] up to and including the first occurrence of [old]. *)
Lemma replace_from_first_occurrence (old new a b : string) :
  old <> "" ->
  (forall i, i < String.length a ->
             String.substring i (String.length old) (a +:+ old +:+ b) <> old) ->
  replace_from old new 0 (a +:+ old +:+ b)
  = a +:+ new +:+ replace_from old new 0 b.
Proof.
  intros Hold. induction a as [|x a IH]; intros Hfirst.
  - rewrite !append_empty_l.
    destruct old as [|c old']; [congruence |].
    rewrite append_cons.
    rewrite replace_from_cons.
    rewrite <- append_cons, prefix_append. simpl String.length.
    replace (S (String.length old') - 1) with (String.length old') by lia.
    now rewrite replace_from_skip.
  - rewrite !append_cons.
    assert (Hnot : String.prefix old (String x (a +:+ old +:+ b)) = false).
    { destruct (String.prefix old _) eqn:P; [| reflexivity].
      apply prefix_correct in P. exfalso.
      apply (Hfirst 0); [simpl; lia |]. now rewrite !append_cons. }
    rewrite replace_from_cons, Hnot. f_equal. apply IH.
    intros i Hi. specialize (Hfirst (S i)).
    rewrite !append_cons in Hfirst. simpl in Hfirst. apply Hfirst. lia.
Qed.

(** Without an occurrence of [old] the string is unchanged. *)
Lemma replace_from_no_occurrence (old new s : string) :
  (forall i, String.substring i (String.length old) s <> old) ->
  replace_from old new 0 s = s.
Proof.
  induction s as [|x s IH]; intros Hnone; [reflexivity |].
  assert (Hnot : String.prefix old (String x s) = false).
  { destruct (String.prefix old _) eqn:P; [| reflexivity].
    apply prefix_correct in P. exfalso. now apply (Hnone 0). }
  rewrite replace_from_cons, Hnot. f_equal. apply IH.
  intros i. exact (Hnone (S i)).
Qed.

Lemma replace_nonempty (s old new : string) :
  old <> "" -> replace s old new = replace_from old new 0 s.
Proof. intros H. unfold replace. destruct old; [congruence | reflexivity]. Qed.

(** A line made of the speaker label, a text, the label once more and a
    last text loses both labels. [String.index] locates the first
    occurrence of the label. *)
Lemma replace_label_twice (name u1 u2 : string) :
  let label := name +:+ ":" in
  String.index 0 label (u1 +:+ label +:+ u2) = Some (String.length u1) ->
  String.index 0 label u2 = None ->
  replace (label +:+ u1 +:+ label +:+ u2) label "" = u1 +:+ u2.
Proof.
  intros label Hfirst Hnone.
  assert (Hlabel : label <> "").
  { unfold label. destruct name; discriminate. }
  rewrite replace_nonempty by exact Hlabel.
  change (label +:+ u1 +:+ label +:+ u2)
    with ("" +:+ label +:+ u1 +:+ label +:+ u2).
  rewrite (replace_from_first_occurrence label "" "" (u1 +:+ label +:+ u2) Hlabel).
  - rewrite !append_empty_l.
    rewrite (replace_from_first_occurrence label "" u1 u2 Hlabel).
    + rewrite append_empty_l. f_equal.
      apply replace_from_no_occurrence. intros i.
      apply (index_correct3 0 i label u2 Hnone Hlabel). lia.
    + intros i Hi.
      apply (index_correct2 0 _ label _ Hfirst i); lia.
  - intros i Hi. simpl in Hi. lia.
Qed.

Lemma startswith_label_nonempty (line name : string) :
  startswith line (name +:+ ":") = true -> String.eqb line "" = false.
Proof.
  unfold startswith. intros H. destruct line; [| reflexivity].
  destruct name; discriminate H.
Qed.

Lemma entry_of_host_line (host_name guest_name line : string) :
  startswith (strip line) (host_name +:+ ":") = true ->
  entry_of_line host_name guest_name line
  = Some {| role := "host";
            text := strip (replace (strip line) (host_name +:+ ":") "") |}.
Proof.
  intros H. unfold entry_of_line, add_line.
  now rewrite (startswith_label_nonempty _ _ H), H.
Qed.

Lemma entry_of_guest_line (host_name guest_name line : string) :
  startswith (strip line) (host_name +:+ ":") = false ->
  startswith (strip line) (guest_name +:+ ":") = true ->
  entry_of_line host_name guest_name line
  = Some {| role := "guest";
            text := strip (replace (strip line) (guest_name +:+ ":") "") |}.
Proof.
  intros Hh Hg. unfold entry_of_line, add_line.
  now rewrite (startswith_label_nonempty _ _ Hg), Hh, Hg.
Qed.

(** C10: the conversation is made of the entries of the lines of the
    transcript, asterisks removed, in order. A line that starts with the
    label of a speaker gives an entry whose text is the stripped line with
    the label replaced by nothing wherever it occurs: a line made of the
    label, a text, the label again and a last text keeps the two texts
    only. A line that starts with neither label gives no entry. *)
Theorem C10_label_removed_at_every_occurrence (host_name guest_name : string) :
  (forall transcript,
     preprocess_transcript transcript host_name guest_name
     = omap (entry_of_line host_name guest_name)
         (split_lines (remove_asterisks transcript)))
  /\ (forall line,
        startswith (strip line) (host_name +:+ ":") = true ->
        entry_of_line host_name guest_name line
        = Some {| role := "host";
                  text := strip (replace (strip line) (host_name +:+ ":") "") |})
  /\ (forall line,
        startswith (strip line) (host_name +:+ ":") = false ->
        startswith (strip line) (guest_name +:+ ":") = true ->
        entry_of_line host_name guest_name line
        = Some {| role := "guest";
                  text := strip (replace (strip line) (guest_name +:+ ":") "") |})
  /\ (forall line,
        startswith (strip line) (host_name +:+ ":") = false ->
        startswith (strip line) (guest_name +:+ ":") = false ->
        entry_of_line host_name guest_name line = None)
  /\ (forall line u1 u2,
        let label := host_name +:+ ":" in
        strip line = label +:+ u1 +:+ label +:+ u2 ->
        String.index 0 label (u1 +:+ label +:+ u2) = Some (String.length u1) ->
        String.index 0 label u2 = None ->
        entry_of_line host_name guest_name line
        = Some {| role := "host"; text := strip (u1 +:+ u2) |})
  /\ (forall line u1 u2,
        let label := guest_name +:+ ":" in
        strip line = label +:+ u1 +:+ label +:+ u2 ->
        startswith (strip line) (host_name +:+ ":") = false ->
        String.index 0 label (u1 +:+ label +:+ u2) = Some (String.length u1) ->
        String.index 0 label u2 = None ->
        entry_of_line host_name guest_name line
        = Some {| role := "guest"; text := strip (u1 +:+ u2) |}).
Proof.
  split; [| split; [| split; [| split; [| split]]]].
  - intros transcript. unfold preprocess_transcript. now rewrite fold_add_line.
  - intros line. apply entry_of_host_line.
  - intros line. apply entry_of_guest_line.
  - intros line Hh Hg. unfold entry_of_line, add_line.
    rewrite Hh, Hg. now destruct (String.eqb (strip line) "").
  - intros line u1 u2 label Hline Hfirst Hnone.
    rewrite entry_of_host_line.
    + rewrite Hline. unfold label in *.
      now rewrite (replace_label_twice host_name u1 u2 Hfirst Hnone).
    + rewrite Hline. apply prefix_append.
  - intros line u1 u2 label Hline Hhost Hfirst Hnone.
    rewrite entry_of_guest_line.
    + rewrite Hline. unfold label in *.
      now rewrite (replace_label_twice guest_name u1 u2 Hfirst Hnone).
    + exact Hhost.
    + rewrite Hline. apply prefix_append.
Qed.

(** The host quotes their own label: the quoted label is lost with the
    leading one. *)
Lemma C10_witness :
  entry_of_line "Bob" "Ann" "  Bob: I said Bob: hi there "
  = Some {| role := "host"; text := "I said  hi there" |}.
Proof.
  destruct (C10_label_removed_at_every_occurrence "Bob" "Ann")
    as (_ & _ & _ & _ & H & _).
  apply (H "  Bob: I said Bob: hi there " " I said " " hi there");
    reflexivity.
Defined.

End Preprocessing.

(* ===================================================================== *)
(** * Further properties of the source aggregator *)
(* ===================================================================== *)

Section AggregatorMore.
Import Utils.





(** Two dicts with the same keys and the same value under every key are
    the same dict. *)
Lemma dict_ext {V : Type} (d1 d2 : dict V) :
  dict_keys d1 = dict_keys d2 ->
  List.NoDup (dict_keys d1) ->
  (forall k, dict_get d1 k = dict_get d2 k) ->
  d1 = d2.
Proof.
  revert d2; induction d1 as [|[k1 v1] d1 IH]; intros [|[k2 v2] d2];
    simpl; intros Hkeys Hnd Hget; try discriminate; [reflexivity |].
  injection Hkeys as -> Hkeys'. fold (dict_keys d1) (dict_keys d2) in *.
  inversion Hnd as [|? ? Hout Hnd']; subst.
  pose proof (Hget k2) as Hhead. rewrite String.eqb_refl in Hhead.
  injection Hhead as ->. f_equal. apply IH; [exact Hkeys' | exact Hnd' |].
  intros k. destruct (String.eqb_spec k2 k) as [<-|Hne].
  - rewrite !dict_get_absent; [reflexivity | | exact Hout].
    now rewrite <- Hkeys'.
  - specialize (Hget k). apply String.eqb_neq in Hne. now rewrite Hne in Hget.
Qed.

Lemma unique_sources_keys_nil (l : list Source) :
  dict_keys (unique_sources l) = first_occurrences (map url l).
Proof.
  unfold unique_sources. rewrite unique_sources_keys. simpl.
  now apply filter_all.
Qed.

Lemma unique_sources_get_nil (l : list Source) (u : string) :
  dict_get (unique_sources l) u = last_with_url u l.
Proof.
  unfold unique_sources. rewrite unique_sources_get. simpl.
  now destruct (last_with_url u l).
Qed.

(** Handing the aggregator every batch a second time changes nothing: the
    sources kept, their order and the text are those of the batches given
    once. *)
Theorem repeated_batches_change_nothing
    (responses : list SearchResponse) (m : Z) (inc : bool) :
  unique_sources (sources_list (responses ++ responses))
  = unique_sources (sources_list responses)
  /\ deduplicate_and_format_sources (responses ++ responses) m inc
     = deduplicate_and_format_sources responses m inc.
Proof.
  assert (E : unique_sources (sources_list (responses ++ responses))
              = unique_sources (sources_list responses)).
  { rewrite !sources_list_concat, map_app, concat_app.
    set (l := concat (map results responses)).
    assert (Hfold : unique_sources (l ++ l)
                    = foldl (fun d s => dict_set d (url s) s) (unique_sources l) l).
    { unfold unique_sources. apply foldl_app. }
    apply dict_ext.
    - rewrite Hfold, unique_sources_keys, unique_sources_keys_nil.
      rewrite filter_none; [apply app_nil_r |].
      intros k Hk. apply negb_false_iff, key_in_spec. exact Hk.
    - rewrite Hfold, unique_sources_keys, unique_sources_keys_nil.
      rewrite filter_none; [rewrite app_nil_r; apply first_occurrences_NoDup |].
      intros k Hk. apply negb_false_iff, key_in_spec. exact Hk.
    - intros k. rewrite Hfold, unique_sources_get, unique_sources_get_nil.
      now destruct (last_with_url k l). }
  split; [exact E |].
  unfold deduplicate_and_format_sources. now rewrite E.
Qed.

Lemma dict_set_map_values {V W : Type} (f : V -> W) (d : dict V)
    (k : string) (v : V) :
  dict_set (map (fun kv => (fst kv, f (snd kv))) d) k (f v)
  = map (fun kv => (fst kv, f (snd kv))) (dict_set d k v).
Proof.
  induction d as [|[k0 v0] d IH]; simpl; [reflexivity |].
  destruct (String.eqb k0 k); simpl; [reflexivity | now rewrite IH].
Qed.

Lemma unique_sources_without_raw (l : list Source) :
  dict_values (unique_sources (map without_raw l))
  = map without_raw (dict_values (unique_sources l)).
Proof.
  unfold unique_sources.
  assert (G : forall d : dict Source,
             foldl (fun d s => dict_set d (url s) s)
               (map (fun kv => (fst kv, without_raw (snd kv))) d)
               (map without_raw l)
             = map (fun kv => (fst kv, without_raw (snd kv)))
                 (foldl (fun d s => dict_set d (url s) s) d l)).
  { induction l as [|s l IH]; intros d; simpl; [reflexivity |].
    rewrite <- IH. f_equal.
    exact (dict_set_map_values without_raw d (url s) s). }
  specialize (G []). simpl in G. rewrite G.
  unfold dict_values. rewrite !map_map. reflexivity.
Qed.

(** When raw content is not requested, neither the raw content of the
    results nor the budget has any effect on the text. *)
Theorem raw_content_and_budget_unused_when_not_requested
    (responses : list SearchResponse) (m m' : Z) :
  deduplicate_and_format_sources (map response_without_raw responses) m' false
  = deduplicate_and_format_sources responses m false.
Proof.
  rewrite !deduplicate_and_format_sources_blocks.
  assert (E : sources_list (map response_without_raw responses)
              = map without_raw (sources_list responses)).
  { rewrite !sources_list_concat, map_map. simpl.
    rewrite concat_map, map_map. reflexivity. }
  rewrite E, unique_sources_without_raw, map_map.
  reflexivity.
Qed.

(** ** Length of the raw content shown *)

(** With a budget that is not negative, the raw content shown for a source
    never exceeds [max_tokens_per_source * 4] characters plus the fifteen
    of the truncation marker, and content that is not cut stays within
    the limit itself. *)
Theorem limited_raw_content_bounded (m : Z) (source : Source) :
  (0 <= m)%Z ->
  (len (limited_raw_content m source) <= m * 4 + 15)%Z
  /\ ((len (raw_text source) <= m * 4)%Z ->
      (len (limited_raw_content m source) <= m * 4)%Z).
Proof.
  intros Hm.
  assert (Hshown : limited_raw_content m source
                   = if (len (raw_text source) >? m * 4)%Z
                     then slice_to (raw_text source) (m * 4) +:+ "... [truncated]"
                     else raw_text source).
  { unfold limited_raw_content, raw_text.
    destruct (raw_content source); reflexivity. }
  rewrite Hshown.
  destruct (Z.gtb_spec (len (raw_text source)) (m * 4)) as [Hgt|Hle].
  - split; [| lia].
    unfold slice_to. destruct (Z.leb_spec 0 (m * 4)); [| lia].
    unfold len in *. rewrite length_append, substring_0_length by lia.
    simpl String.length. lia.
  - split; [lia | tauto].
Qed.

Lemma limited_raw_content_bounded_witness :
  (len (limited_raw_content 1 (mkSource "t" "u" "c" (RawStr "abcdefgh")))
   <= 1 * 4 + 15)%Z.
Proof.
  apply (limited_raw_content_bounded 1 (mkSource "t" "u" "c" (RawStr "abcdefgh"))).
  lia.
Defined.

(** With a negative budget the test for truncation always succeeds: the
    marker is appended to every source, after the raw content without its
    last [-(max_tokens_per_source * 4)] characters. *)
Theorem negative_budget_always_marks (m : Z) (source : Source) :
  (m < 0)%Z ->
  limited_raw_content m source
  = String.substring 0 (Z.to_nat (len (raw_text source) + m * 4))
      (raw_text source)
    +:+ "... [truncated]".
Proof.
  intros Hm. unfold limited_raw_content.
  replace (match raw_content source with
           | RawAbsent => ""
           | RawNone => ""
           | RawStr s => s
           end) with (raw_text source)
    by (unfold raw_text; now destruct (raw_content source)).
  destruct (Z.gtb_spec (len (raw_text source)) (m * 4)) as [_|Hle];
    [| unfold len in Hle; lia].
  unfold slice_to. destruct (Z.leb_spec 0 (m * 4)); [lia | reflexivity].
Qed.

Lemma negative_budget_always_marks_witness :
  limited_raw_content (-1) (mkSource "t" "u" "c" (RawStr "abcdef"))
  = "ab... [truncated]"
  /\ limited_raw_content (-1) (mkSource "t" "u" "c" RawNone) = "... [truncated]".
Proof.
  split.
  - apply (negative_budget_always_marks (-1) (mkSource "t" "u" "c" (RawStr "abcdef"))).
    lia.
  - apply (negative_budget_always_marks (-1) (mkSource "t" "u" "c" RawNone)).
    lia.
Defined.

End AggregatorMore.

(* ===================================================================== *)
(** * Further properties of the configuration *)
(* ===================================================================== *)

Section ResolutionMore.
Import Config.

Lemma configuration_ext (c1 c2 : Configuration) :
  (forall f, getattr f c1 = getattr f c2) -> c1 = c2.
Proof.
  intros H. destruct c1, c2.
  pose proof (H fld_podcast_structure). pose proof (H fld_number_of_queries).
  pose proof (H fld_max_search_depth). pose proof (H fld_planner_provider).
  pose proof (H fld_planner_model). pose proof (H fld_writer_provider).
  pose proof (H fld_writer_model). pose proof (H fld_search_api).
  simpl in *. congruence.
Qed.

(** Entries of the configurable dict whose key is not the name of a field
    (the thread id the application passes, for one) have no effect on the
    configuration, and a config dict without a configurable entry acts as
    no config at all. *)
Theorem unknown_configurable_keys_ignored
    (env : environ) (conf : gmap string value) (others : list string)
    (k : string) (v : value) :
  (forall f, field_name f <> k) ->
  from_runnable_config env (Some (mkRunnableConfig (Some (<[k := v]> conf)) others))
  = from_runnable_config env (Some (mkRunnableConfig (Some conf) others))
  /\ from_runnable_config env (Some (mkRunnableConfig None others))
     = from_runnable_config env None.
Proof.
  intros Hk. split.
  - apply configuration_ext. intros f.
    rewrite !from_runnable_config_field. simpl.
    rewrite lookup_insert_ne; [reflexivity |].
    intros E. exact (Hk f (eq_sym E)).
  - apply configuration_ext. intros f.
    rewrite !from_runnable_config_field.
    unfold configurable_of. simpl. now destruct others.
Qed.

(** The config the application builds holds a thread id only: with no
    variable set, the depth is the default. *)
Lemma unknown_configurable_keys_ignored_witness :
  getattr fld_max_search_depth
    (from_runnable_config ∅
       (Some (mkRunnableConfig (Some (<[ "thread_id" := VStr "0f8a" ]> ∅)) [])))
  = VInt 4.
Proof.
  rewrite (proj1 (unknown_configurable_keys_ignored
                    ∅ ∅ [] "thread_id" (VStr "0f8a")
                    ltac:(intros f; destruct f; discriminate))).
  reflexivity.
Defined.

(** A value taken from the environment is a string and is handed on as it
    is: [get_config_value] accepts it whatever the field, so a provider or a
    search API named in the environment is not checked against the members
    of its enum, and a number of queries or a depth from the environment is
    not turned into an int. *)
Theorem environment_value_used_verbatim
    (env : environ) (config : option RunnableConfig) (f : field) (s : string) :
  env !! upper (field_name f) = Some s ->
  s <> "" ->
  getattr f (from_runnable_config env config) = VStr s
  /\ Utils.get_config_value (getattr f (from_runnable_config env config)) = inr s.
Proof.
  intros Hvar Hs.
  assert (E : getattr f (from_runnable_config env config) = VStr s).
  { rewrite from_runnable_config_field, Hvar.
    apply String.eqb_neq in Hs. now rewrite Hs. }
  split; [exact E | now rewrite E].
Qed.

Lemma environment_value_used_verbatim_witness :
  Utils.get_config_value
    (getattr fld_writer_provider
       (from_runnable_config {[ "WRITER_PROVIDER" := "mistral" ]} None))
  = inr "mistral".
Proof.
  apply (environment_value_used_verbatim
           {[ "WRITER_PROVIDER" := "mistral" ]} None fld_writer_provider "mistral").
  - reflexivity.
  - discriminate.
Defined.

End ResolutionMore.

(* ===================================================================== *)
(** * Further properties of the planning stage and the sub-workflow *)
(* ===================================================================== *)

Section WorkflowMore.
Import State Config Graph.

Variable cap : Capabilities.
Variable env : environ.

Lemma filter_all_in {A : Type} (p : A -> bool) (l : list A) :
  (forall x, In x l -> p x = true) -> List.filter p l = l.
Proof.
  induction l as [|x l IH]; intros H; simpl; [reflexivity |].
  rewrite (H x (or_introl eq_refl)). f_equal. apply IH.
  intros y Hy. apply H. now right.
Qed.

Lemma filter_partition_Permutation {A : Type} (p : A -> bool) (l : list A) :
  Permutation (List.filter (fun x => negb (p x)) l ++ List.filter p l) l.
Proof.
  induction l as [|x l IH]; simpl; [constructor |].
  destruct (p x); simpl.
  - apply Permutation_sym, Permutation_cons_app, Permutation_sym, IH.
  - now constructor.
Qed.

(** The planning stage splits the plan in two: the segments that need no
    research go to the accumulator, the others are dispatched, each once,
    to the segment sub-workflow with a search count of 0 and the names of
    the request. Both parts keep the plan's order, together they are the
    plan, and a plan without research segments dispatches nothing. *)
Theorem plan_splits_segments_by_research_flag
    (h : store) (topic host_name guest_name : string)
    (config : option RunnableConfig) (sends : list Send) (update : PlanUpdate) :
  generate_podcast_plan cap env h topic host_name guest_name config
  = inr (sends, update) ->
  let planned := plan_segments update in
  let dispatched_segments := map (fun d => segment (arg d)) sends in
  plan_completed_segments update
  = List.filter (fun s => negb (research (h s))) planned
  /\ dispatched_segments = List.filter (fun s => research (h s)) planned
  /\ Permutation (plan_completed_segments update ++ dispatched_segments) planned
  /\ (forall d, In d sends ->
        node d = "build_segment_with_research"
        /\ arg d = dispatched (segment (arg d)) host_name guest_name)
  /\ ((forall s, In s planned -> research (h s) = false) ->
      sends = [] /\ plan_completed_segments update = planned).
Proof.
  intros Hplan planned dispatched_segments.
  unfold generate_podcast_plan in Hplan.
  destruct (Utils.get_config_value _) as [e|model]; [discriminate |].
  step_bind in Hplan.
  destruct (Utils.get_config_value _) as [e|provider]; [discriminate |].
  step_bind in Hplan.
  destruct (tavily_search_async cap _) as [e|results]; [discriminate |].
  step_bind in Hplan.
  injection Hplan as Hsends Hupdate.
  subst update. cbn [plan_segments plan_completed_segments] in *.
  assert (Hd : dispatched_segments
               = List.filter (fun s => research (h s)) planned).
  { unfold dispatched_segments. rewrite <- Hsends, map_map. simpl.
    apply map_id. }
  split; [reflexivity |]. split; [exact Hd |]. split.
  { rewrite Hd. apply filter_partition_Permutation. }
  split.
  { intros d Hin. rewrite <- Hsends in Hin.
    apply in_map_iff in Hin as (s & <- & _). split; reflexivity. }
  intros Hnone. split.
  - rewrite <- Hsends. fold planned. rewrite filter_none; [reflexivity |].
    exact Hnone.
  - apply filter_all_in. intros s Hs. now rewrite (Hnone s Hs).
Qed.

(** A failing search surfaces in two ways. In the planning stage the
    error of the search is raised as it is. In the segment sub-workflow
    [search_web] replaces it, whatever it was, by a ValueError that blames
    the configured search API, and the run ends there, before any draft. *)
Theorem search_failure_raw_in_planning_masked_in_research
    (fuel : nat) (h : store) (s : loc) (topic host_name guest_name : string)
    (config : RunnableConfig) (model provider api : string) (e : exn) :
  let configurable := from_runnable_config env (Some config) in
  Utils.get_config_value (cfg_writer_model configurable) = inr model ->
  Utils.get_config_value (cfg_writer_provider configurable) = inr provider ->
  Utils.get_config_value (cfg_search_api configurable) = inr api ->
  (forall queries, tavily_search_async cap queries = inl e) ->
  generate_podcast_plan cap env h topic host_name guest_name (Some config) = inl e
  /\ build_segment_with_research cap env (S fuel) h
       (dispatched s host_name guest_name) config
     = Some (inl (ValueError ("Unsupported search API: "
                              +:+ str_of_value (cfg_search_api configurable)))).
Proof.
  intros configurable Hmodel Hprovider Hapi Hsearch. split.
  - unfold generate_podcast_plan. fold configurable.
    rewrite Hmodel. step_bind. rewrite Hprovider. step_bind.
    now rewrite Hsearch.
  - unfold build_segment_with_research, generate_queries.
    fold configurable. rewrite Hprovider. step_bind. rewrite Hmodel. step_bind.
    unfold research_rounds, search_web. fold configurable.
    cbn [search_queries dispatched segment search_iterations source_str
         State.host State.guest].
    step_bind. rewrite Hapi. step_bind.
    now rewrite Hsearch.
Qed.

(** The shape of every run of the sub-workflow that reaches END: one search
    was made, the update of the accumulator is the dispatched segment
    alone, that segment kept its title, duration, description and research
    flag, and no other segment object was touched. *)
Theorem accepted_run_writes_only_its_segment (fuel : nat) (h h' : store)
    (state state' : SegmentState) (config : RunnableConfig)
    (completed : list loc) :
  build_segment_with_research cap env fuel h state config
  = Some (inr (h', state', completed)) ->
  search_iterations state' = (search_iterations state + 1)%Z
  /\ completed = [segment state]
  /\ segment state' = segment state
  /\ (forall r, r <> segment state -> h' r = h r)
  /\ title (h' (segment state)) = title (h (segment state))
  /\ duration (h' (segment state)) = duration (h (segment state))
  /\ description (h' (segment state)) = description (h (segment state))
  /\ research (h' (segment state)) = research (h (segment state)).
Proof.
  unfold build_segment_with_research.
  destruct (generate_queries cap env h state (Some config)) as [e|queries];
    [discriminate |].
  destruct fuel as [|fuel]; [discriminate |].
  rewrite research_rounds_one_round. simpl.
  destruct (search_web cap env _ (Some config)) as [e|[source n]] eqn:S;
    [discriminate |].
  destruct (write_dialogue cap env 0 h _ config) as [e|[h1 [c|q s]]] eqn:W;
    try discriminate.
  intros E. inversion E; subst; clear E. simpl.
  unfold search_web in S. simpl in S.
  destruct (Utils.get_config_value _) as [e|api]; [discriminate |].
  step_bind. simpl in S.
  destruct (tavily_search_async cap _) as [e|results]; [discriminate |].
  inversion S; subst; clear S. split; [reflexivity |].
  unfold write_dialogue in W. simpl in W.
  destruct (Utils.get_config_value _) as [e|model]; [discriminate |].
  simpl in W.
  destruct (Utils.get_config_value _) as [e|provider]; [discriminate |].
  simpl in W.
  destruct (grade _); simpl in W; [| discriminate].
  inversion W; subst; clear W.
  split; [reflexivity |]. split; [reflexivity |].
  split; [intros r Hr; now apply set_dialogue_other |].
  unfold set_dialogue. rewrite Nat.eqb_refl. simpl. tauto.
Qed.

End WorkflowMore.

(** The plan of the example capabilities: intro and outro need no research,
    the two topics do. *)
Lemma plan_splits_segments_by_research_flag_witness :
  let h := store_of [State.mkSegment "Intro" "30" "opening" false "";
                     State.mkSegment "Basics" "300" "the basics" true "";
                     State.mkSegment "Applications" "300" "uses" true "";
                     State.mkSegment "Outro" "30" "closing" false ""] in
  exists sends update,
    Graph.generate_podcast_plan (example_capabilities State.pass) ∅ h
      "quantum computing" "Ann" "Bob" None = inr (sends, update)
    /\ Graph.plan_completed_segments update = [0; 3]
    /\ map (fun d => State.segment (Graph.arg d)) sends = [1; 2].
Proof.
  intros h. eexists _, _.
  match goal with
  | |- ?run = inr (?sends, ?update) /\ _ =>
      assert (E : run = inr (sends, update)) by reflexivity;
      split; [exact E |];
      destruct (plan_splits_segments_by_research_flag
                  (example_capabilities State.pass) ∅ h
                  "quantum computing" "Ann" "Bob" None _ _ E)
        as (Hc & Hd & _)
  end.
  split; [exact Hc | exact Hd].
Defined.

Lemma search_failure_raw_in_planning_masked_in_research_witness :
  let cap :=
    {| Graph.structured_queries := fun _ _ _ => [];
       Graph.structured_segments := fun _ _ _ => [];
       Graph.chat := fun _ _ _ _ => "";
       Graph.structured_feedback := fun _ _ _ _ => State.mkFeedback State.pass [] None [];
       Graph.tavily_search_async := fun _ => inl (KeyError "results") |} in
  Graph.build_segment_with_research cap ∅ 3
    (store_of [State.mkSegment "Basics" "300" "the basics" true ""])
    (dispatched 0 "Ann" "Bob") (config_with_depth 4)
  = Some (inl (ValueError "Unsupported search API: SearchAPI.TAVILY")).
Proof.
  intros cap.
  refine (proj2 (search_failure_raw_in_planning_masked_in_research
                   cap ∅ 2 _ 0 "topic" "Ann" "Bob" (config_with_depth 4)
                   "claude-3-5-sonnet-latest" "anthropic" "tavily"
                   (KeyError "results") _ _ _ _));
    reflexivity.
Defined.

Lemma accepted_run_writes_only_its_segment_witness :
  exists h' state' completed,
    Graph.build_segment_with_research (example_capabilities State.pass) ∅ 3
      (store_of [State.mkSegment "Basics" "300" "the basics" true ""])
      (dispatched 0 "Ann" "Bob") (config_with_depth 4)
    = Some (inr (h', state', completed))
    /\ State.search_iterations state' = 1%Z
    /\ completed = [0].
Proof.
  eexists _, _, _.
  match goal with
  | |- ?run = Some (inr (?h', ?state', ?completed)) /\ _ =>
      assert (E : run = Some (inr (h', state', completed))) by reflexivity;
      split; [exact E |];
      destruct (accepted_run_writes_only_its_segment
                  (example_capabilities State.pass) ∅ 3 _ _
                  (dispatched 0 "Ann" "Bob") _ (config_with_depth 4) _ E)
        as (Hn & Hc & _)
  end.
  split; [exact Hn | exact Hc].
Defined.

(* ===================================================================== *)
(** * Further properties of the intro/outro stage *)
(* ===================================================================== *)

Section IntroOutroMore.
Import State Config Graph.

Variable cap : Capabilities.
Variable env : environ.

Lemma py_in_false (h : store) (x : loc) (xs : list loc) :
  py_in h x xs = false ->
  forall e, In e xs -> e <> x /\ h e <> h x.
Proof.
  intros H e He. split.
  - intros ->. rewrite (py_in_member h x xs He) in H. discriminate.
  - intros E.
    assert (P : py_in h x xs = true) by (apply py_in_spec; now exists e).
    congruence.
Qed.

(** Writing a segment that is not in a list does not change whether
    another segment is in it. *)
Lemma py_in_after_write (h : store) (w x : loc) (d : string) (xs : list loc) :
  py_in h w xs = false -> x <> w ->
  py_in (set_dialogue h w d) x xs = py_in h x xs.
Proof.
  intros Hw Hx. unfold py_in.
  pose proof (py_in_false h w xs Hw) as Hout.
  induction xs as [|e xs IH]; simpl; [reflexivity |].
  rewrite IH.
  - rewrite (set_dialogue_other h w e d), (set_dialogue_other h w x d);
      [reflexivity | exact Hx |].
    apply (Hout e). now left.
  - unfold py_in in Hw. simpl in Hw. now apply orb_false_iff in Hw as [_ Hw].
  - intros e' He'. apply Hout. now right.
Qed.

(** When the plan has an intro and an outro and neither is in the
    accumulator, both are written: each gets the answer of the model to
    its own prompt, both prompts carry the rendering of the accumulator as
    it was on entry (the outro prompt does not see the new intro), and the
    two segments are appended to the accumulator, intro first. *)
Theorem intro_and_outro_written_from_entry_context
    (h : store) (segments completed : list loc)
    (config : option RunnableConfig) (intro outro : loc)
    (model provider : string) :
  find_titled h "intro" segments = Some intro ->
  find_titled h "outro" segments = Some outro ->
  py_in h intro completed = false ->
  py_in h outro completed = false ->
  Utils.get_config_value
    (cfg_writer_model (from_runnable_config env config)) = inr model ->
  Utils.get_config_value
    (cfg_writer_provider (from_runnable_config env config)) = inr provider ->
  let context := Utils.format_segments h completed in
  let opening :=
    chat cap 0 model provider
      (final_segment_writer_instructions "opening" context) in
  let closing :=
    chat cap 1 model provider
      (final_segment_writer_instructions "closing" context) in
  let h' := set_dialogue (set_dialogue h intro opening) outro closing in
  write_intro_outro cap env h segments completed config
  = inr (h', {| io_completed_segments := completed ++ [intro; outro];
                io_episode_segments_from_research :=
                  Utils.format_segments h' (completed ++ [intro; outro]) |})
  /\ intro <> outro
  /\ dialogue (h' intro) = opening
  /\ dialogue (h' outro) = closing
  /\ (forall r, r <> intro -> r <> outro -> h' r = h r).
Proof.
  intros Hintro Houtro Pintro Poutro Hmodel Hprovider context opening closing h'.
  assert (Hne : intro <> outro).
  { intros ->.
    destruct (find_titled_Some _ _ _ _ Hintro) as [_ T1].
    destruct (find_titled_Some _ _ _ _ Houtro) as [_ T2].
    rewrite T1 in T2. discriminate. }
  split; [| split; [exact Hne | split; [| split]]].
  - unfold write_intro_outro. rewrite Hmodel. step_bind.
    rewrite Hprovider. step_bind.
    rewrite Hintro, Houtro. unfold write_final_segment.
    rewrite Pintro. cbn [negb].
    rewrite (py_in_after_write h intro outro _ completed Pintro (not_eq_sym Hne)).
    rewrite Poutro. cbn [negb]. reflexivity.
  - unfold h'. rewrite set_dialogue_other by exact Hne.
    apply set_dialogue_same.
  - apply set_dialogue_same.
  - intros r R1 R2. unfold h'.
    now rewrite !set_dialogue_other.
Qed.

(** The stage does nothing when, for the intro and for the outro alike,
    the plan has no such segment or the segment is already in the
    accumulator: no object is written and the update is the accumulator it
    was given. *)
Theorem intro_outro_stage_no_op
    (h : store) (segments completed : list loc)
    (config : option RunnableConfig) (model provider : string) :
  (forall r, find_titled h "intro" segments = Some r ->
             py_in h r completed = true) ->
  (forall r, find_titled h "outro" segments = Some r ->
             py_in h r completed = true) ->
  Utils.get_config_value
    (cfg_writer_model (from_runnable_config env config)) = inr model ->
  Utils.get_config_value
    (cfg_writer_provider (from_runnable_config env config)) = inr provider ->
  write_intro_outro cap env h segments completed config
  = inr (h, {| io_completed_segments := completed;
               io_episode_segments_from_research :=
                 Utils.format_segments h completed |}).
Proof.
  intros Hintro Houtro Hmodel Hprovider.
  unfold write_intro_outro. rewrite Hmodel. step_bind.
  rewrite Hprovider. step_bind. unfold write_final_segment.
  destruct (find_titled h "intro" segments) as [ri|].
  - rewrite (Hintro ri eq_refl). cbn [negb].
    destruct (find_titled h "outro" segments) as [ro|].
    + rewrite (Houtro ro eq_refl). cbn [negb]. now rewrite app_nil_r.
    + now rewrite app_nil_r.
  - destruct (find_titled h "outro" segments) as [ro|].
    + rewrite (Houtro ro eq_refl). cbn [negb]. now rewrite app_nil_r.
    + now rewrite app_nil_r.
Qed.

End IntroOutroMore.

(** A plan whose intro and outro both need research: the accumulator holds
    the one researched topic when the stage runs. *)
Lemma intro_and_outro_written_from_entry_context_witness :
  let h := store_of [State.mkSegment "Intro" "30" "opening" true "";
                     State.mkSegment "Basics" "300" "the basics" true "Bob: basics";
                     State.mkSegment "OUTRO" "30" "closing" true ""] in
  exists h' update,
    Graph.write_intro_outro (example_capabilities State.pass) ∅ h
      [0; 1; 2] [1] None = inr (h', update)
    /\ Graph.io_completed_segments update = [1; 0; 2]
    /\ State.dialogue (h' 0) = "Ann: hello"
    /\ State.dialogue (h' 2) = "Ann: hello".
Proof.
  intros h.
  pose proof (intro_and_outro_written_from_entry_context
                (example_capabilities State.pass) ∅ h [0; 1; 2] [1] None 0 2
                "claude-3-5-sonnet-latest" "anthropic"
                eq_refl eq_refl eq_refl eq_refl) as H.
  destruct H as (Hrun & _ & Hi & Ho & _); [reflexivity | reflexivity |].
  eexists _, _. split; [exact Hrun |].
  split; [reflexivity |]. split; [exact Hi | exact Ho].
Defined.

(** A plan without intro or outro. *)
Lemma intro_outro_stage_no_op_witness :
  let h := store_of [State.mkSegment "Basics" "300" "the basics" true "Bob: basics"] in
  Graph.write_intro_outro (example_capabilities State.pass) ∅ h [0] [0] None
  = inr (h, {| Graph.io_completed_segments := [0];
               Graph.io_episode_segments_from_research :=
                 Utils.format_segments h [0] |}).
Proof.
  intros h.
  apply (intro_outro_stage_no_op (example_capabilities State.pass) ∅ h [0] [0] None
           "claude-3-5-sonnet-latest" "anthropic");
    try reflexivity; intros r Hr; discriminate Hr.
Defined.

(* ===================================================================== *)
(** * Further properties of the transcript compiler *)
(* ===================================================================== *)

Section CompilerMore.
Import State Graph.

Lemma same_but_dialogue_set (h : store) (r r' : loc) (d : string) :
  same_but_dialogue (set_dialogue h r d r') (h r').
Proof.
  unfold same_but_dialogue, set_dialogue.
  destruct (Nat.eqb_spec r' r) as [->|_]; simpl; tauto.
Qed.

Lemma assign_dialogues_frame (m : gmap string string) (segments : list loc) :
  forall h h' : store,
    assign_dialogues m h segments = inr h' ->
    (forall r, same_but_dialogue (h' r) (h r))
    /\ (forall r, ~ In r segments -> h' r = h r).
Proof.
  induction segments as [|s rest IH]; intros h h'; simpl.
  - intros E. injection E as <-. split; [| reflexivity].
    intros r. unfold same_but_dialogue. tauto.
  - destruct (m !! title (h s)) as [d|]; [| discriminate].
    intros E. destruct (IH _ _ E) as [Hsame Hout]. split.
    + intros r. specialize (Hsame r).
      pose proof (same_but_dialogue_set h s r d) as Hset.
      unfold same_but_dialogue in *. intuition congruence.
    + intros r Hr. rewrite Hout by tauto.
      apply set_dialogue_other. intros ->. apply Hr. now left.
Qed.

(** Everything a successful compilation tells. *)
Lemma compile_final_transcript_result (h h' : store)
    (segments completed : list loc) (transcript : string) :
  compile_final_transcript h segments completed = inr (h', transcript) ->
  (forall s, In s segments -> In (title (h s)) (titles h completed))
  /\ transcript = join (nl +:+ nl) (map (fun s => dialogue (h' s)) segments)
  /\ (forall r, In r segments ->
        last_dialogue h (title (h r)) completed = Some (dialogue (h' r)))
  /\ (forall r, same_but_dialogue (h' r) (h r))
  /\ (forall r, ~ In r segments -> h' r = h r).
Proof.
  intros Hrun.
  pose proof (compile_final_transcript_success _ _ _ _ _ Hrun) as Hpresent.
  destruct (compile_final_transcript_present h segments completed Hpresent)
    as (h0 & Hrun0 & Hdialogues).
  rewrite Hrun in Hrun0. injection Hrun0 as -> ->.
  split; [exact Hpresent |]. split; [reflexivity |].
  split; [exact Hdialogues |].
  unfold compile_final_transcript in Hrun.
  destruct (missing_titles h _ segments); [| discriminate].
  unfold bind in Hrun.
  destruct (assign_dialogues _ h segments) as [e|h1] eqn:A; [discriminate |].
  injection Hrun as <- _.
  exact (assign_dialogues_frame _ _ _ _ A).
Qed.

(** The compiler has one way to fail, the missing-segments error, raised
    exactly when a planned title is absent from the accumulator; the lookup
    of a dialogue never raises. When it succeeds it has changed nothing but
    the dialogue of planned segments: titles, durations, descriptions and
    research flags are kept and segments outside the plan are untouched. *)
Theorem compile_fails_only_on_missing_titles
    (h : store) (segments completed : list loc) :
  (exists msg s,
      compile_final_transcript h segments completed = inl (ValueError msg)
      /\ In s segments /\ ~ In (title (h s)) (titles h completed))
  \/ (exists h' transcript,
        compile_final_transcript h segments completed = inr (h', transcript)
        /\ (forall s, In s segments -> In (title (h s)) (titles h completed))
        /\ (forall r, same_but_dialogue (h' r) (h r))
        /\ (forall r, ~ In r segments -> h' r = h r)).
Proof.
  destruct (List.filter (fun t => negb (key_in t (titles h completed)))
              (titles h segments)) as [|t0 rest] eqn:E.
  - right.
    assert (Hpresent : forall s, In s segments ->
                                 In (title (h s)) (titles h completed)).
    { intros s Hs.
      destruct (in_dec string_dec (title (h s)) (titles h completed))
        as [Hin|Hout]; [exact Hin | exfalso].
      assert (F : In (title (h s))
                    (List.filter (fun t => negb (key_in t (titles h completed)))
                       (titles h segments))).
      { apply List.filter_In. split.
        - unfold titles. now apply in_map with (f := fun s => title (h s)).
        - apply negb_true_iff. destruct (key_in _ _) eqn:K; [| reflexivity].
          apply key_in_spec in K. contradiction. }
      rewrite E in F. destruct F. }
    destruct (compile_final_transcript_present h segments completed Hpresent)
      as (h' & Hrun & _).
    exists h', (join (nl +:+ nl) (map (fun s => dialogue (h' s)) segments)).
    split; [exact Hrun |]. split; [exact Hpresent |].
    destruct (compile_final_transcript_result _ _ _ _ _ Hrun)
      as (_ & _ & _ & Hsame & Hout).
    split; assumption.
  - left.
    assert (F : In t0 (List.filter (fun t => negb (key_in t (titles h completed)))
                         (titles h segments))) by (rewrite E; now left).
    apply List.filter_In in F as [Hin Hout].
    unfold titles in Hin. apply in_map_iff in Hin as (s & <- & Hs).
    exists ("Missing processed segments: " +:+ join ", " (title (h s) :: rest)), s.
    split; [| split; [exact Hs |]].
    + unfold compile_final_transcript. now rewrite missing_titles_filter, E.
    + apply negb_true_iff in Hout. intros Hin.
      apply key_in_spec in Hin. congruence.
Qed.

Lemma last_dialogue_app (h : store) (t : string) (a b : list loc) :
  last_dialogue h t (a ++ b)
  = match last_dialogue h t b with
    | Some d => Some d
    | None => last_dialogue h t a
    end.
Proof.
  induction a as [|x a IH]; simpl.
  - now destruct (last_dialogue h t b).
  - rewrite IH. now destruct (last_dialogue h t b).
Qed.

(** A store that keeps the titles and that, for every accumulated segment,
    keeps its dialogue or holds the one found under its title, gives the
    same dialogue under every title. *)
Lemma last_dialogue_stable (h h' : store) (completed : list loc) :
  (forall r, title (h' r) = title (h r)) ->
  (forall c, In c completed ->
     dialogue (h' c) = dialogue (h c)
     \/ last_dialogue h (title (h c)) completed = Some (dialogue (h' c))) ->
  forall t, last_dialogue h' t completed = last_dialogue h t completed.
Proof.
  intros Htitle Hdialogue t.
  assert (G : forall l pre, completed = pre ++ l ->
                last_dialogue h' t l = last_dialogue h t l).
  { induction l as [|c rest IH]; intros pre Hsplit; simpl; [reflexivity |].
    rewrite (IH (pre ++ [c])) by (rewrite <- app_assoc; exact Hsplit).
    destruct (last_dialogue h t rest) as [d|] eqn:R; [reflexivity |].
    rewrite Htitle.
    destruct (String.eqb_spec (title (h c)) t) as [Ht|_]; [| reflexivity].
    f_equal.
    destruct (Hdialogue c) as [Hd | Hd].
    - rewrite Hsplit. apply in_or_app. right. now left.
    - exact Hd.
    - rewrite Hsplit, last_dialogue_app in Hd. simpl in Hd.
      rewrite Ht, R, String.eqb_refl in Hd. congruence. }
  exact (G completed [] eq_refl).
Qed.

(** Compiling again, from the store the first compilation left, gives the
    same transcript and changes no segment. *)
Theorem compile_twice_same_transcript (h h' : store)
    (segments completed : list loc) (transcript : string) :
  compile_final_transcript h segments completed = inr (h', transcript) ->
  exists h'',
    compile_final_transcript h' segments completed = inr (h'', transcript)
    /\ forall r, h'' r = h' r.
Proof.
  intros Hrun.
  destruct (compile_final_transcript_result _ _ _ _ _ Hrun)
    as (Hpresent & -> & Hdialogues & Hsame & Hout).
  assert (Htitle : forall r, title (h' r) = title (h r))
    by (intros r; apply (Hsame r)).
  assert (Hstable : forall t, last_dialogue h' t completed
                              = last_dialogue h t completed).
  { apply last_dialogue_stable; [exact Htitle |].
    intros c Hc. destruct (in_dec Nat.eq_dec c segments) as [Hin|Hnot].
    - right. now apply Hdialogues.
    - left. now rewrite (Hout c Hnot). }
  assert (Htitles : forall l, titles h' l = titles h l).
  { intros l. unfold titles. apply List.map_ext. exact Htitle. }
  destruct (compile_final_transcript_present h' segments completed)
    as (h'' & Hrun' & Hdialogues').
  { intros s Hs. rewrite Htitle, Htitles. now apply Hpresent. }
  destruct (compile_final_transcript_result _ _ _ _ _ Hrun')
    as (_ & _ & _ & Hsame' & Hout').
  assert (Hfix : forall r, h'' r = h' r).
  { intros r. destruct (in_dec Nat.eq_dec r segments) as [Hin|Hnot];
      [| now apply Hout'].
    assert (Hd : dialogue (h'' r) = dialogue (h' r)).
    { specialize (Hdialogues' r Hin). rewrite Hstable, Htitle in Hdialogues'.
      rewrite (Hdialogues r Hin) in Hdialogues'. congruence. }
    destruct (Hsame' r) as (T & D & P & R).
    destruct (h'' r), (h' r). simpl in *. congruence. }
  exists h''. split; [| exact Hfix].
  rewrite Hrun'. do 3 f_equal.
  apply List.map_ext. intros s. now rewrite Hfix.
Qed.

End CompilerMore.

Lemma compile_twice_same_transcript_witness :
  let h := store_of [State.mkSegment "Intro" "30" "opening" false "";
                     State.mkSegment "T1" "300" "first topic" true "";
                     State.mkSegment "Intro" "30" "opening" false "Ann: welcome";
                     State.mkSegment "T1" "300" "first topic" true "Bob: one"] in
  exists h' h'' transcript,
    Graph.compile_final_transcript h [0; 1] [0; 3; 2] = inr (h', transcript)
    /\ Graph.compile_final_transcript h' [0; 1] [0; 3; 2] = inr (h'', transcript)
    /\ transcript = "Ann: welcome" +:+ nl +:+ nl +:+ "Bob: one".
Proof.
  intros h.
  assert (E : exists h',
             Graph.compile_final_transcript h [0; 1] [0; 3; 2]
             = inr (h', "Ann: welcome" +:+ nl +:+ nl +:+ "Bob: one"))
    by (eexists; reflexivity).
  destruct E as [h' E].
  destruct (compile_twice_same_transcript h h' [0; 1] [0; 3; 2] _ E)
    as (h2 & E2 & _).
  exists h', h2, ("Ann: welcome" +:+ nl +:+ nl +:+ "Bob: one").
  split; [exact E |]. split; [exact E2 | reflexivity].
Defined.

(* ===================================================================== *)
(** * Further properties of the transcript preprocessing *)
(* ===================================================================== *)

Section PreprocessingMore.
Import PodcastGenerator.

Lemma has_char_append (c : ascii) (a b : string) :
  has_char c (a +:+ b) = has_char c a || has_char c b.
Proof.
  induction a as [|x a IH]; [reflexivity |].
  rewrite append_cons. simpl. rewrite IH. now rewrite orb_assoc.
Qed.

Lemma remove_asterisks_clean (s : string) :
  has_char "*" (remove_asterisks s) = false.
Proof.
  induction s as [|x s IH]; simpl; [reflexivity |].
  destruct (Ascii.eqb x "*") eqn:E; simpl; [exact IH |].
  now rewrite E, IH.
Qed.

Lemma split_lines_nonempty (s : string) : split_lines s <> [].
Proof.
  induction s as [|x s IH]; simpl; [discriminate |].
  destruct (Ascii.eqb x (ascii_of_nat 10)); [discriminate |].
  destruct (split_lines s); [contradiction | discriminate].
Qed.

Lemma split_lines_no_line_feed (s line : string) :
  In line (split_lines s) -> has_char (ascii_of_nat 10) line = false.
Proof.
  revert line; induction s as [|x s IH]; intros line; simpl.
  - intros [<- | []]. reflexivity.
  - destruct (Ascii.eqb x (ascii_of_nat 10)) eqn:E.
    + intros [<- | H]; [reflexivity | now apply IH].
    + destruct (split_lines s) as [|l ls]; simpl.
      * intros [<- | []]. simpl. now rewrite E.
      * intros [<- | H].
        -- simpl. rewrite E. apply IH. now left.
        -- apply IH. now right.
Qed.

Lemma split_lines_keeps_absence (c : ascii) (s line : string) :
  has_char c s = false -> In line (split_lines s) -> has_char c line = false.
Proof.
  revert line; induction s as [|x s IH]; intros line; simpl.
  - intros _ [<- | []]. reflexivity.
  - intros H. apply orb_false_iff in H as [Hx Hs].
    destruct (Ascii.eqb x (ascii_of_nat 10)).
    + intros [<- | H]; [reflexivity | now apply IH].
    + destruct (split_lines s) as [|l ls]; simpl.
      * intros [<- | []]. simpl. now rewrite Hx.
      * intros [<- | H].
        -- simpl. rewrite Hx. apply IH; [exact Hs | now left].
        -- apply IH; [exact Hs | now right].
Qed.

Lemma lstrip_keeps_absence (c : ascii) (s : string) :
  has_char c s = false -> has_char c (lstrip s) = false.
Proof.
  induction s as [|x s IH]; simpl; [reflexivity |].
  intros H. destruct (isspace x); [| exact H].
  apply IH. now apply orb_false_iff in H as [_ H].
Qed.

Lemma rstrip_keeps_absence (c : ascii) (s : string) :
  has_char c s = false -> has_char c (rstrip s) = false.
Proof.
  induction s as [|x s IH]; simpl; [reflexivity |].
  intros H. apply orb_false_iff in H as [Hx Hs]. specialize (IH Hs).
  destruct (rstrip s) as [|y r].
  - destruct (isspace x); simpl; [reflexivity | now rewrite Hx].
  - simpl in *. now rewrite Hx, IH.
Qed.

Lemma strip_keeps_absence (c : ascii) (s : string) :
  has_char c s = false -> has_char c (strip s) = false.
Proof.
  intros H. unfold strip. now apply rstrip_keeps_absence, lstrip_keeps_absence.
Qed.

Lemma replace_from_keeps_absence (c : ascii) (old s : string) :
  has_char c s = false ->
  forall skip, has_char c (replace_from old "" skip s) = false.
Proof.
  induction s as [|x s IH]; intros H skip; [reflexivity |].
  simpl in H. apply orb_false_iff in H as [Hx Hs].
  destruct skip as [|k].
  - rewrite replace_from_cons. destruct (String.prefix old (String x s)).
    + rewrite append_empty_l. now apply IH.
    + simpl. rewrite Hx. now apply IH.
  - simpl. now apply IH.
Qed.

Lemma rstrip_idempotent (s : string) : rstrip (rstrip s) = rstrip s.
Proof.
  induction s as [|x s IH]; simpl; [reflexivity |].
  destruct (rstrip s) as [|y r] eqn:R.
  - destruct (isspace x) eqn:X; simpl; [reflexivity | now rewrite X].
  - change (rstrip (String x (String y r))
            = String x (String y r)).
    simpl. simpl in IH. now rewrite IH.
Qed.

Lemma lstrip_rstrip_lstrip (s : string) :
  lstrip (rstrip (lstrip s)) = rstrip (lstrip s).
Proof.
  induction s as [|x s IH]; simpl; [reflexivity |].
  destruct (isspace x) eqn:X; [exact IH |].
  simpl. destruct (rstrip s); rewrite ?X; simpl; now rewrite X.
Qed.

Lemma strip_idempotent (s : string) : strip (strip s) = strip s.
Proof.
  unfold strip. now rewrite lstrip_rstrip_lstrip, rstrip_idempotent.
Qed.

Lemma in_omap {A B : Type} (f : A -> option B) (l : list A) (b : B) :
  In b (omap f l) <-> exists a, In a l /\ f a = Some b.
Proof.
  induction l as [|x l IH]; simpl.
  - split; [intros [] | intros (a & [] & _)].
  - destruct (f x) as [y|] eqn:E; simpl; rewrite IH.
    + split.
      * intros [<- | (a & Ha & Hf)]; [exists x; tauto | exists a; tauto].
      * intros (a & [<- | Ha] & Hf); [left; congruence | right; now exists a].
    + split.
      * intros (a & Ha & Hf). exists a. tauto.
      * intros (a & [<- | Ha] & Hf); [congruence | now exists a].
Qed.

(** The shape of an entry that a line gives. *)
Lemma entry_of_line_Some (host_name guest_name line : string) (e : Entry) :
  entry_of_line host_name guest_name line = Some e ->
  (startswith (strip line) (host_name +:+ ":") = true
   /\ e = {| role := "host";
             text := strip (replace (strip line) (host_name +:+ ":") "") |})
  \/ (startswith (strip line) (host_name +:+ ":") = false
      /\ startswith (strip line) (guest_name +:+ ":") = true
      /\ e = {| role := "guest";
                text := strip (replace (strip line) (guest_name +:+ ":") "") |}).
Proof.
  unfold entry_of_line, add_line.
  destruct (String.eqb (strip line) ""); [discriminate |].
  destruct (startswith (strip line) (host_name +:+ ":")).
  - intros E. injection E as <-. now left.
  - destruct (startswith (strip line) (guest_name +:+ ":")); [| discriminate].
    intros E. injection E as <-. right. tauto.
Qed.

Lemma label_nonempty (name : string) : name +:+ ":" <> "".
Proof. destruct name; discriminate. Qed.

(** Every entry of the conversation has the role host or guest, and its
    text holds no asterisk and no line feed and has no white space at
    either end. *)
Theorem conversation_entries_are_clean
    (transcript host_name guest_name : string) (e : Entry) :
  In e (preprocess_transcript transcript host_name guest_name) ->
  (role e = "host" \/ role e = "guest")
  /\ has_char "*" (text e) = false
  /\ has_char (ascii_of_nat 10) (text e) = false
  /\ strip (text e) = text e.
Proof.
  unfold preprocess_transcript. rewrite fold_add_line. simpl.
  intros He. apply in_omap in He as (line & Hline & Hentry).
  assert (Hstar : has_char "*" (strip line) = false).
  { apply strip_keeps_absence.
    apply (split_lines_keeps_absence _ (remove_asterisks transcript));
      [apply remove_asterisks_clean | exact Hline]. }
  assert (Hfeed : has_char (ascii_of_nat 10) (strip line) = false).
  { apply strip_keeps_absence. exact (split_lines_no_line_feed _ _ Hline). }
  assert (Hclean : forall name c,
             has_char c (strip line) = false ->
             has_char c (strip (replace (strip line) (name +:+ ":") "")) = false).
  { intros name c Hc. apply strip_keeps_absence.
    rewrite replace_nonempty by apply label_nonempty.
    now apply replace_from_keeps_absence. }
  apply entry_of_line_Some in Hentry as [(_ & ->) | (_ & _ & ->)]; simpl.
  - split; [now left |].
    split; [now apply Hclean |]. split; [now apply Hclean |].
    apply strip_idempotent.
  - split; [now right |].
    split; [now apply Hclean |]. split; [now apply Hclean |].
    apply strip_idempotent.
Qed.

Lemma conversation_entries_are_clean_witness :
  let e := {| role := "guest"; text := "so-called bold" |} in
  In e (preprocess_transcript
          ("Ann: hi" +:+ nl +:+ "  Bob: so-called **bold**  ") "Ann" "Bob")
  /\ has_char "*" (text e) = false.
Proof.
  intros e.
  assert (H : In e (preprocess_transcript
                      ("Ann: hi" +:+ nl +:+ "  Bob: so-called **bold**  ")
                      "Ann" "Bob")) by (simpl; tauto).
  split; [exact H |].
  exact (proj1 (proj2 (conversation_entries_are_clean _ _ _ _ H))).
Defined.

(** When host and guest have the same name every entry has the role host:
    the guest is never recognised. *)
Theorem same_names_all_host (transcript name : string) (e : Entry) :
  In e (preprocess_transcript transcript name name) -> role e = "host".
Proof.
  unfold preprocess_transcript. rewrite fold_add_line. simpl.
  intros He. apply in_omap in He as (line & _ & Hentry).
  apply entry_of_line_Some in Hentry as [(_ & ->) | (Hh & Hg & _)];
    [reflexivity | congruence].
Qed.

Lemma same_names_all_host_witness :
  preprocess_transcript ("Sam: question" +:+ nl +:+ "Sam: answer") "Sam" "Sam"
  = [mkEntry "host" "question"; mkEntry "host" "answer"]
  /\ role (mkEntry "host" "answer") = "host".
Proof.
  split; [reflexivity |].
  apply (same_names_all_host ("Sam: question" +:+ nl +:+ "Sam: answer") "Sam").
  simpl. tauto.
Defined.

(** The conversation is empty exactly when no line of the transcript,
    asterisks removed and stripped, starts with the label of the host or of
    the guest. *)
Theorem conversation_empty_iff_no_labelled_line
    (transcript host_name guest_name : string) :
  preprocess_transcript transcript host_name guest_name = []
  <-> forall line, In line (split_lines (remove_asterisks transcript)) ->
        startswith (strip line) (host_name +:+ ":") = false
        /\ startswith (strip line) (guest_name +:+ ":") = false.
Proof.
  unfold preprocess_transcript. rewrite fold_add_line. simpl.
  set (lines := split_lines (remove_asterisks transcript)).
  split.
  - intros Hempty line Hline.
    destruct (startswith (strip line) (host_name +:+ ":")) eqn:Hh.
    + exfalso.
      pose proof (entry_of_host_line host_name guest_name line Hh) as E.
      assert (F : In {| role := "host";
                        text := strip (replace (strip line) (host_name +:+ ":") "") |}
                    (omap (entry_of_line host_name guest_name) lines))
        by (apply in_omap; now exists line).
      rewrite Hempty in F. destruct F.
    + split; [reflexivity |].
      destruct (startswith (strip line) (guest_name +:+ ":")) eqn:Hg;
        [exfalso | reflexivity].
      pose proof (entry_of_guest_line host_name guest_name line Hh Hg) as E.
      assert (F : In {| role := "guest";
                        text := strip (replace (strip line) (guest_name +:+ ":") "") |}
                    (omap (entry_of_line host_name guest_name) lines))
        by (apply in_omap; now exists line).
      rewrite Hempty in F. destruct F.
  - intros Hnone.
    destruct (omap (entry_of_line host_name guest_name) lines) as [|e rest] eqn:E;
      [reflexivity | exfalso].
    assert (F : In e (omap (entry_of_line host_name guest_name) lines))
      by (rewrite E; now left).
    apply in_omap in F as (line & Hline & Hentry).
    destruct (Hnone line Hline) as [Hh Hg].
    apply entry_of_line_Some in Hentry as [(Hh' & _) | (_ & Hg' & _)]; congruence.
Qed.

End PreprocessingMore.

(* ===================================================================== *)
(** * Voices (podcast_generator.py) *)
(* ===================================================================== *)

Section VoiceSetup.
Import Voices.

Context {Voice : Type}.

Lemma str_in_two (x a b : string) : str_in x [a; b] = true <-> x = a \/ x = b.
Proof.
  unfold str_in. simpl. rewrite orb_false_r, orb_true_iff, !String.eqb_eq.
  reflexivity.
Qed.

Lemma random_choice_member {A : Type} (draw : nat) (seq : list A) (x : A) :
  random_choice draw seq = inr x -> In x seq.
Proof.
  unfold random_choice. destruct seq as [|y seq]; [discriminate |].
  intros E. injection E as E'. subst x.
  exact (nth_In (y :: seq) y
           (Nat.mod_upper_bound draw (length (y :: seq)) ltac:(discriminate))).
Qed.

Lemma random_choice_nonempty {A : Type} (draw : nat) (seq : list A) :
  seq <> [] -> exists x, random_choice draw seq = inr x /\ In x seq.
Proof.
  intros H. destruct seq as [|y seq]; [contradiction |].
  exists (nth (draw mod length (y :: seq)) (y :: seq) y).
  split; [reflexivity |].
  exact (nth_In (y :: seq) y
           (Nat.mod_upper_bound draw (length (y :: seq)) ltac:(discriminate))).
Qed.

(** The gender [setup_voice_for_role] returns is male or female. *)
Lemma setup_voice_for_role_gender (draw : nat)
    (path_exists : string -> bool)
    (clone_voice : string -> string -> string -> exn + Voice)
    (role : string) (voice_file gender : option string)
    (voice : option Voice) (g : string) :
  setup_voice_for_role draw path_exists clone_voice role voice_file gender
  = inr (voice, g) ->
  g = "male" \/ g = "female".
Proof.
  unfold setup_voice_for_role.
  destruct (str_in role ["host"; "guest"]); cbn [negb]; [| discriminate].
  destruct (match gender with
            | Some g0 => inr g0
            | None => random_choice draw ["male"; "female"]
            end) as [e|g1]; [discriminate |].
  destruct (str_in g1 ["male"; "female"]) eqn:G; cbn [negb]; [| discriminate].
  apply str_in_two in G. intros E.
  assert (Hg : g = g1).
  { destruct voice_file as [file|]; [| now injection E].
    destruct (negb (String.eqb file "") && path_exists file);
      [| now injection E].
    destruct (clone_voice file _ _); now injection E. }
  now subst.
Qed.

(** [setup_voice_for_role] raises for a role other than host and guest and
    for a given gender other than male and female (compared as they are
    written, so Male is refused), and for nothing else: a cloning that
    fails is swallowed and leaves no voice. What it returns is a gender
    that is male or female, the given one when one was given, and a voice
    only when the file name is not empty, the file exists and the cloning
    under the name of the role succeeded. *)
Theorem setup_voice_for_role_outcomes (draw : nat)
    (path_exists : string -> bool)
    (clone_voice : string -> string -> string -> exn + Voice)
    (role : string) (voice_file gender : option string) :
  match setup_voice_for_role draw path_exists clone_voice role voice_file gender with
  | inl e =>
      (role <> "host" /\ role <> "guest"
       /\ e = Raise (ValueError "Role must be 'host' or 'guest'"))
      \/ ((role = "host" \/ role = "guest")
          /\ (exists g, gender = Some g /\ g <> "male" /\ g <> "female")
          /\ e = Raise (ValueError "Gender must be 'male' or 'female'"))
  | inr (voice, g) =>
      (role = "host" \/ role = "guest")
      /\ (g = "male" \/ g = "female")
      /\ (forall g0, gender = Some g0 -> g = g0)
      /\ (forall v, voice = Some v ->
            exists file, voice_file = Some file /\ file <> ""
                         /\ path_exists file = true
                         /\ clone_voice file
                              (if String.eqb role "host"
                               then "Host Voice" else "Guest Voice")
                              ("Cloned voice for " +:+ role)
                            = inr v)
  end.
Proof.
  unfold setup_voice_for_role.
  destruct (str_in role ["host"; "guest"]) eqn:R; cbn [negb].
  2:{ left. split; [| split; [| reflexivity]]; intros ->; discriminate R. }
  apply str_in_two in R.
  assert (Hname : capitalize role +:+ " Voice"
                  = if String.eqb role "host" then "Host Voice" else "Guest Voice")
    by (destruct R as [-> | ->]; reflexivity).
  assert (Hpick : exists g, random_choice draw ["male"; "female"] = inr g
                            /\ (g = "male" \/ g = "female")).
  { destruct (random_choice_nonempty draw ["male"; "female"]) as (g & E & Hin);
      [discriminate |].
    exists g. split; [exact E |]. simpl in Hin. intuition. }
  destruct gender as [g0|].
  - destruct (str_in g0 ["male"; "female"]) eqn:G; cbn [negb].
    + apply str_in_two in G.
      destruct voice_file as [file|].
      * destruct (String.eqb_spec file "") as [->|Hfile]; cbn [negb andb].
        -- repeat split; try assumption; try (intros ? E; now injection E);
             intros v E; discriminate E.
        -- destruct (path_exists file) eqn:P.
           ++ rewrite Hname.
              destruct (clone_voice file _ _) as [e|voice] eqn:C.
              ** repeat split; try assumption; try (intros ? E; now injection E);
                   intros v E; discriminate E.
              ** repeat split; try assumption; try (intros ? E; now injection E).
                 intros v E. injection E as <-. exists file. tauto.
           ++ repeat split; try assumption; try (intros ? E; now injection E);
                intros v E; discriminate E.
      * repeat split; try assumption; try (intros ? E; now injection E);
          intros v E; discriminate E.
    + right. split; [exact R |]. split; [| reflexivity].
      exists g0. split; [reflexivity |].
      split; intros ->; discriminate G.
  - destruct Hpick as (g & -> & Hg).
    assert (G : str_in g ["male"; "female"] = true) by now apply str_in_two.
    rewrite G. cbn [negb].
    destruct voice_file as [file|].
    + destruct (String.eqb_spec file "") as [->|Hfile]; cbn [negb andb].
      * repeat split; try assumption; try discriminate.
      * destruct (path_exists file) eqn:P.
        -- rewrite Hname.
           destruct (clone_voice file _ _) as [e|voice] eqn:C.
           ++ repeat split; try assumption; try discriminate.
           ++ repeat split; try assumption; try discriminate.
              intros v E. injection E as <-. exists file. tauto.
        -- repeat split; try assumption; try discriminate.
    + repeat split; try assumption; try discriminate.
Qed.

(** [select_voice_id] compares the gender in lower case. For male (female)
    it returns one of the male (female) voice ids of the configuration it
    was given, or of the loaded one when it was given none, provided that
    list is there and not empty; for any other gender it raises the
    ValueError whatever the configuration. A gender that
    [setup_voice_for_role] has returned is never refused. *)
Theorem select_voice_id_picks_from_gender_list (draw : nat)
    (loaded : option VoiceConfig) (gender : string)
    (config : option VoiceConfig) :
  let used := match config with
              | None => loaded
              | Some c => Some c
              end in
  (forall c l, used = Some c -> lower gender = "male" ->
               males c = Some l -> l <> [] ->
               exists id, select_voice_id draw loaded gender config = inr id
                          /\ In id l)
  /\ (forall c l, used = Some c -> lower gender = "female" ->
                  females c = Some l -> l <> [] ->
                  exists id, select_voice_id draw loaded gender config = inr id
                             /\ In id l)
  /\ (lower gender <> "male" -> lower gender <> "female" ->
      select_voice_id draw loaded gender config
      = inl (Raise (ValueError "Gender must be 'male' or 'female'")))
  /\ (forall draw' path_exists
             (clone_voice : string -> string -> string -> exn + Voice)
             role voice_file given voice,
        setup_voice_for_role draw' path_exists clone_voice role voice_file given
        = inr (voice, gender) ->
        select_voice_id draw loaded gender config
        <> inl (Raise (ValueError "Gender must be 'male' or 'female'"))).
Proof.
  intros used. unfold select_voice_id. fold used.
  split; [| split; [| split]].
  - intros c l -> -> Hm Hl. simpl. rewrite Hm.
    now apply random_choice_nonempty.
  - intros c l -> -> Hf Hl. simpl. rewrite Hf.
    now apply random_choice_nonempty.
  - intros Hm Hf. apply String.eqb_neq in Hm, Hf. now rewrite Hm, Hf.
  - intros draw' path_exists clone_voice role voice_file given voice Hsetup.
    destruct (setup_voice_for_role_gender _ _ _ _ _ _ _ _ Hsetup) as [-> | ->];
      simpl.
    + destruct (config_list used "males" males) as [e|l] eqn:C.
      * unfold config_list in C. destruct used as [c|].
        -- destruct (males c); first [discriminate C | injection C as <-; discriminate].
        -- injection C as <-. discriminate.
      * unfold random_choice. destruct l; discriminate.
    + destruct (config_list used "females" females) as [e|l] eqn:C.
      * unfold config_list in C. destruct used as [c|].
        -- destruct (females c); first [discriminate C | injection C as <-; discriminate].
        -- injection C as <-. discriminate.
      * unfold random_choice. destruct l; discriminate.
Qed.

End VoiceSetup.

(** A gender in capitals and a configuration with two male voices. *)
Lemma select_voice_id_picks_from_gender_list_witness :
  exists id,
    Voices.select_voice_id 3 None "MALE"
      (Some (Voices.mkVoiceConfig (Some ["m1"; "m2"]) (Some ["f1"]))) = inr id
    /\ In id ["m1"; "m2"].
Proof.
  destruct (@select_voice_id_picks_from_gender_list unit 3 None "MALE"
              (Some (Voices.mkVoiceConfig (Some ["m1"; "m2"]) (Some ["f1"]))))
    as (H & _).
  apply (H (Voices.mkVoiceConfig (Some ["m1"; "m2"]) (Some ["f1"])));
    [reflexivity | reflexivity | reflexivity | discriminate].
Defined.

(* ===================================================================== *)
(** * The text of the source aggregator *)
(* ===================================================================== *)

Section AggregatorText.
Import Utils.

Lemma source_block_text (m : Z) (inc : bool) (s : Source) :
  source_block m inc s = block_text m inc s.
Proof.
  unfold source_block, add_source, block_text.
  assert (E : limited_raw_content m s = shown_raw m s).
  { unfold limited_raw_content, shown_raw, raw_text.
    destruct (raw_content s); reflexivity. }
  destruct inc; rewrite ?E, ?append_empty_l, ?append_assoc, ?append_empty_r;
    reflexivity.
Qed.

Lemma omap_ext_in {A B : Type} (f g : A -> option B) (l : list A) :
  (forall x, In x l -> f x = g x) -> omap f l = omap g l.
Proof.
  induction l as [|x l IH]; intros H; simpl; [reflexivity |].
  rewrite (H x (or_introl eq_refl)).
  assert (E : omap f l = omap g l)
    by (apply IH; intros y Hy; apply H; now right).
  unfold omap in E. rewrite E. reflexivity.
Qed.

Lemma dict_values_by_keys {V : Type} (d : dict V) :
  List.NoDup (dict_keys d) -> omap (dict_get d) (dict_keys d) = dict_values d.
Proof.
  unfold dict_keys, dict_values.
  induction d as [|[k v] d IH]; intros Hnd; [reflexivity |].
  inversion Hnd as [|? ? Hout Hnd']; subst.
  assert (E : omap (dict_get ((k, v) :: d)) (map fst d)
              = omap (dict_get d) (map fst d)).
  { apply omap_ext_in. intros k' Hk'. cbn [dict_get].
    destruct (String.eqb_spec k k') as [->|_]; [contradiction | reflexivity]. }
  assert (Hk : dict_get ((k, v) :: d) k = Some v)
    by (simpl; now rewrite String.eqb_refl).
  change (match dict_get ((k, v) :: d) k with
          | Some y => y :: omap (dict_get ((k, v) :: d)) (map fst d)
          | None => omap (dict_get ((k, v) :: d)) (map fst d)
          end = v :: map snd d).
  rewrite Hk, E. f_equal. exact (IH Hnd').
Qed.

(** The values of the dict of the aggregator are the sources to keep. *)
Lemma unique_sources_retained (l : list Source) :
  dict_values (unique_sources l) = retained_sources l.
Proof.
  rewrite <- dict_values_by_keys.
  - rewrite unique_sources_keys_nil. unfold retained_sources.
    apply omap_ext_in. intros u _. apply unique_sources_get_nil.
  - rewrite unique_sources_keys_nil. apply first_occurrences_NoDup.
Qed.

Lemma retained_sources_urls (l : list Source) :
  map url (retained_sources l) = first_occurrences (map url l).
Proof.
  rewrite <- unique_sources_retained, keyed_by_url_values.
  - apply unique_sources_keys_nil.
  - apply keyed_by_url_fold. constructor.
Qed.

Lemma last_with_url_url (u : string) (l : list Source) (s : Source) :
  last_with_url u l = Some s -> url s = u /\ In s l.
Proof.
  induction l as [|x l IH]; simpl; [discriminate |].
  destruct (last_with_url u l) as [s'|].
  - intros E. injection E as ->. destruct (IH eq_refl). tauto.
  - destruct (String.eqb_spec (url x) u) as [Hu|_]; [| discriminate].
    intros E. injection E as <-. tauto.
Qed.

Lemma retained_sources_last (l : list Source) (s : Source) :
  In s (retained_sources l) -> last_with_url (url s) l = Some s.
Proof.
  unfold retained_sources. intros H.
  apply in_omap in H as (u & _ & Hu).
  destruct (last_with_url_url _ _ _ Hu) as [-> _]. exact Hu.
Qed.

(** What [rstrip] takes away is white space at the end. *)
Lemma rstrip_split (s : string) :
  exists ws, s = rstrip s +:+ ws /\ all_space ws = true.
Proof.
  induction s as [|c s (ws & Hs & Hws)]; [now exists "" |].
  simpl. destruct (rstrip s) as [|y r] eqn:R.
  - rewrite append_empty_l in Hs. subst ws.
    destruct (isspace c) eqn:C.
    + exists (String c s). split; [reflexivity |]. simpl. now rewrite C.
    + exists s. split; [reflexivity | exact Hws].
  - exists ws. split; [| exact Hws].
    rewrite append_cons. now rewrite <- Hs.
Qed.

(** The output of the aggregator is the header and the entries, without
    the white space that ends them. *)
Lemma deduplicate_and_format_sources_text
    (responses : list SearchResponse) (m : Z) (inc : bool) :
  let text := ("Sources:" +:+ nl +:+ nl)
              +:+ concat_str
                    (map (block_text m inc)
                       (retained_sources (concat (map results responses)))) in
  deduplicate_and_format_sources responses m inc = strip text
  /\ exists ws,
       text = deduplicate_and_format_sources responses m inc +:+ ws
       /\ all_space ws = true.
Proof.
  intros text.
  assert (E : deduplicate_and_format_sources responses m inc = strip text).
  { rewrite deduplicate_and_format_sources_blocks, unique_sources_retained.
    rewrite sources_list_concat. unfold text. do 3 f_equal.
    apply List.map_ext. intros s. apply source_block_text. }
  split; [exact E |].
  rewrite E. unfold strip.
  assert (L : lstrip text = text) by reflexivity.
  rewrite L. apply rstrip_split.
Qed.

(** C2: the output is the header followed by one entry per URL of the
    input and nothing else (up to the white space stripped at its end);
    the entries come in the order in which their URLs first occur; the
    entry of a URL is written from the title, URL, content and raw content
    of the last result that has this URL. *)
Theorem C2_one_entry_per_url_from_last_occurrence
    (responses : list SearchResponse) (m : Z) (inc : bool) :
  let all_results := concat (map results responses) in
  let kept := retained_sources all_results in
  let text := ("Sources:" +:+ nl +:+ nl)
              +:+ concat_str (map (block_text m inc) kept) in
  deduplicate_and_format_sources responses m inc = strip text
  /\ (exists ws, text = deduplicate_and_format_sources responses m inc +:+ ws
                 /\ all_space ws = true)
  /\ map url kept = first_occurrences (map url all_results)
  /\ List.NoDup (map url kept)
  /\ (forall u, In u (map url kept) <-> In u (map url all_results))
  /\ (forall s, In s kept -> last_with_url (url s) all_results = Some s).
Proof.
  intros all_results kept text.
  destruct (deduplicate_and_format_sources_text responses m inc) as [E W].
  split; [exact E |]. split; [exact W |].
  pose proof (retained_sources_urls all_results) as Hurls. fold kept in Hurls.
  split; [exact Hurls |].
  split; [rewrite Hurls; apply first_occurrences_NoDup |].
  split; [intros u; rewrite Hurls; apply first_occurrences_In |].
  intros s Hs. now apply retained_sources_last.
Qed.

(** C6, as stated, fails on the output of the aggregator.  With one source
    whose raw content, ["body  "] and a line feed, is below the limit, the
    output ends with ["body"]: the strip at the end of the function takes
    the white space at the end of the content away, so the content is not
    in the output unchanged.  With the budget -1 the limit is -4, the
    eleven characters of ["hello world"] are more than that, and the
    content is cut to its first seven characters, not to the limit. *)
Lemma C6_output_is_stripped_and_negative_budget_cuts_from_end :
  let s := mkSource "T" "http://u" "c" (RawStr ("body  " +:+ nl)) in
  let t := mkSource "T" "http://u" "c" (RawStr "hello world") in
  ((len (raw_text s) <= 500 * 4)%Z
   /\ deduplicate_and_format_sources [mkResponse "q" [s]] 500 true
      = "Sources:" +:+ nl +:+ nl
        +:+ "Source T:" +:+ nl +:+ "===" +:+ nl
        +:+ "URL: http://u" +:+ nl +:+ "===" +:+ nl
        +:+ "Most relevant content from source: c" +:+ nl +:+ "===" +:+ nl
        +:+ "Full source content limited to 500 tokens: body"
   /\ occurs_in (raw_text s)
        (deduplicate_and_format_sources [mkResponse "q" [s]] 500 true) = false)
  /\ ((len (raw_text t) > -1 * 4)%Z
      /\ deduplicate_and_format_sources [mkResponse "q" [t]] (-1) true
         = "Sources:" +:+ nl +:+ nl
           +:+ "Source T:" +:+ nl +:+ "===" +:+ nl
           +:+ "URL: http://u" +:+ nl +:+ "===" +:+ nl
           +:+ "Most relevant content from source: c" +:+ nl +:+ "===" +:+ nl
           +:+ "Full source content limited to -1 tokens: hello w... [truncated]"
      /\ len "hello w" <> (-1 * 4)%Z).
Proof.
  intros s t. split; [split; [| split] | split; [| split]].
  - vm_compute. discriminate.
  - vm_compute. reflexivity.
  - vm_compute. reflexivity.
  - vm_compute. reflexivity.
  - vm_compute. reflexivity.
  - vm_compute. discriminate.
Qed.

(** What is shown of the raw content of a source under a budget that is
    not negative. *)
Lemma shown_raw_cases (m : Z) (s : Source) :
  (0 <= m)%Z ->
  let cut := String.substring 0 (Z.to_nat (m * 4)) (raw_text s) in
  ((len (raw_text s) > m * 4)%Z ->
   shown_raw m s = cut +:+ "... [truncated]"
   /\ len cut = (m * 4)%Z /\ String.prefix cut (raw_text s) = true)
  /\ ((len (raw_text s) <= m * 4)%Z -> shown_raw m s = raw_text s)
  /\ (raw_content s = RawAbsent \/ raw_content s = RawNone -> shown_raw m s = "").
Proof.
  intros Hm cut.
  assert (Hslice : slice_to (raw_text s) (m * 4) = cut).
  { unfold slice_to, cut.
    destruct (Z.leb_spec 0 (m * 4)); [reflexivity | lia]. }
  unfold shown_raw. rewrite Hslice.
  split; [| split].
  - intros Hlong.
    destruct (Z.gtb_spec (len (raw_text s)) (m * 4)) as [_|Hle]; [| lia].
    split; [reflexivity |]. split; [| apply substring_0_prefix].
    unfold len, cut in *. rewrite substring_0_length; lia.
  - intros Hshort.
    destruct (Z.gtb_spec (len (raw_text s)) (m * 4)) as [Hgt|_];
      [lia | reflexivity].
  - intros Hnone.
    assert (E : raw_text s = "")
      by (unfold raw_text; destruct Hnone as [-> | ->]; reflexivity).
    rewrite E. change (len "") with 0%Z.
    destruct (Z.gtb_spec 0 (m * 4)) as [Hgt|_]; [lia | reflexivity].
Qed.

(** C6, as the code has it: with raw content requested and a budget that is not
    negative, the output is the header and the entries of the retained
    sources, without the white space that ends this text; the entry of a
    source ends with its raw content, which is cut to exactly
    [max_tokens_per_source * 4] characters and followed by the truncation
    marker when it is longer than that, and is put in unchanged and
    unmarked otherwise; raw content that is absent or [None] is shown as
    the empty string, and no input makes the function fail. *)
Theorem C6_raw_content_truncated_before_final_strip
    (responses : list SearchResponse) (m : Z) :
  (0 <= m)%Z ->
  let kept := retained_sources (concat (map results responses)) in
  let text := ("Sources:" +:+ nl +:+ nl)
              +:+ concat_str (map (block_text m true) kept) in
  deduplicate_and_format_sources responses m true = strip text
  /\ (exists ws, text = deduplicate_and_format_sources responses m true +:+ ws
                 /\ all_space ws = true)
  /\ (forall s, In s kept ->
        block_text m true s
        = "Source " +:+ title s +:+ ":" +:+ nl +:+ "===" +:+ nl
          +:+ "URL: " +:+ url s +:+ nl +:+ "===" +:+ nl
          +:+ "Most relevant content from source: " +:+ content s
          +:+ nl +:+ "===" +:+ nl
          +:+ "Full source content limited to " +:+ str_of_int m
          +:+ " tokens: " +:+ shown_raw m s +:+ nl +:+ nl)
  /\ (forall s, In s kept ->
        let cut := String.substring 0 (Z.to_nat (m * 4)) (raw_text s) in
        ((len (raw_text s) > m * 4)%Z ->
         shown_raw m s = cut +:+ "... [truncated]"
         /\ len cut = (m * 4)%Z /\ String.prefix cut (raw_text s) = true)
        /\ ((len (raw_text s) <= m * 4)%Z -> shown_raw m s = raw_text s)
        /\ (raw_content s = RawAbsent \/ raw_content s = RawNone ->
            shown_raw m s = "")).
Proof.
  intros Hm kept text.
  destruct (deduplicate_and_format_sources_text responses m true) as [E W].
  split; [exact E |]. split; [exact W |].
  split; [intros s _; reflexivity |].
  intros s _. now apply shown_raw_cases.
Qed.

Lemma C6_witness :
  (0 <= 1)%Z
  /\ deduplicate_and_format_sources
       [mkResponse "q"
          [mkSource "A" "http://a" "x" (RawStr "abcdef");
           mkSource "B" "http://b" "y" (RawStr "abcd");
           mkSource "C" "http://c" "z" RawNone]] 1 true
     = strip
         ("Sources:" +:+ nl +:+ nl
          +:+ "Source A:" +:+ nl +:+ "===" +:+ nl
          +:+ "URL: http://a" +:+ nl +:+ "===" +:+ nl
          +:+ "Most relevant content from source: x" +:+ nl +:+ "===" +:+ nl
          +:+ "Full source content limited to 1 tokens: abcd... [truncated]"
          +:+ nl +:+ nl
          +:+ "Source B:" +:+ nl +:+ "===" +:+ nl
          +:+ "URL: http://b" +:+ nl +:+ "===" +:+ nl
          +:+ "Most relevant content from source: y" +:+ nl +:+ "===" +:+ nl
          +:+ "Full source content limited to 1 tokens: abcd" +:+ nl +:+ nl
          +:+ "Source C:" +:+ nl +:+ "===" +:+ nl
          +:+ "URL: http://c" +:+ nl +:+ "===" +:+ nl
          +:+ "Most relevant content from source: z" +:+ nl +:+ "===" +:+ nl
          +:+ "Full source content limited to 1 tokens: " +:+ nl +:+ nl).
Proof.
  split; [lia |].
  destruct (C6_raw_content_truncated_before_final_strip
              [mkResponse "q"
                 [mkSource "A" "http://a" "x" (RawStr "abcdef");
                  mkSource "B" "http://b" "y" (RawStr "abcd");
                  mkSource "C" "http://c" "z" RawNone]] 1 ltac:(lia))
    as (H & _).
  exact H.
Defined.

End AggregatorText.

(* ===================================================================== *)
(** * The presence test of the intro/outro stage *)
(* ===================================================================== *)

Section IntroOutroPresence.
Import State Config Graph.

Variable cap : Capabilities.
Variable env : environ.

(** One writing step, followed for a segment [r] through a store [h0] that
    still agrees with the store [h] of the entry of the stage on [r] and
    on the accumulator: the accumulator is not written; a step aimed at
    another segment leaves [r] alone; a step aimed at [r] does nothing
    when the accumulator holds an object equal to [r], and writes [r]
    when it holds none. *)
Lemma write_final_segment_tracks (call : nat) (model provider kind episode : string)
    (completed : list loc) (target : option loc) (h h0 : store)
    (new0 : list loc) (r : loc) :
  (forall e, In e completed -> h0 e = h e) ->
  h0 r = h r ->
  let '(h', new') :=
    write_final_segment cap call model provider kind episode completed target
      (h0, new0) in
  (forall e, In e completed -> h' e = h e)
  /\ (target <> Some r -> h' r = h r /\ (In r new' <-> In r new0))
  /\ (target = Some r ->
      ((exists e, In e completed /\ h e = h r) -> h' r = h r /\ new' = new0)
      /\ ((forall e, In e completed -> h e <> h r) ->
          h' r = {| title := title (h r); duration := duration (h r);
                    description := description (h r);
                    research := research (h r);
                    dialogue :=
                      chat cap call model provider
                        (final_segment_writer_instructions kind episode) |}
          /\ new' = new0 ++ [r])).
Proof.
  intros Hacc Hr. unfold write_final_segment.
  destruct target as [s|].
  - destruct (py_in h0 s completed) eqn:P; cbn [negb].
    + split; [exact Hacc |].
      split; [intros _; split; [exact Hr | tauto] |].
      intros E. injection E as ->.
      split; [intros _; split; [exact Hr | reflexivity] |].
      intros Hnone. apply py_in_spec in P as (e & He & Heq).
      rewrite (Hacc e He), Hr in Heq. destruct (Hnone e He Heq).
    + pose proof (py_in_false h0 s completed P) as Hout.
      split.
      { intros e He. rewrite set_dialogue_other; [now apply Hacc |].
        now apply (Hout e). }
      split.
      { intros Hne. assert (Hrs : r <> s) by congruence.
        split; [now rewrite set_dialogue_other |].
        rewrite in_app_iff. simpl. split; [| tauto].
        intros [H | [H | []]]; [exact H | congruence]. }
      intros E. injection E as ->.
      split.
      { intros (e & He & Heq). destruct (Hout e He) as [_ Hneq].
        rewrite (Hacc e He), Hr in Hneq. contradiction. }
      intros _. split; [| reflexivity].
      unfold set_dialogue. rewrite Nat.eqb_refl, Hr. reflexivity.
  - split; [exact Hacc |].
    split; [intros _; split; [exact Hr | tauto] |].
    discriminate.
Qed.

(** The segment found under one of the two names is not the one found
    under the other. *)
Lemma find_titled_apart (h : store) (segments : list loc) (a b : string)
    (r : loc) :
  a <> b -> find_titled h a segments = Some r ->
  find_titled h b segments <> Some r.
Proof.
  intros Hab Ha Hb.
  apply find_titled_Some in Ha as [_ Ta].
  apply find_titled_Some in Hb as [_ Tb]. congruence.
Qed.

(** The stage, followed for the segment found under one of its two names. *)
Lemma write_intro_outro_tracks
    (h : store) (segments completed : list loc) (config : option RunnableConfig)
    (model provider name kind : string) (call : nat) (r : loc) :
  (name = "intro" /\ kind = "opening" /\ call = 0)
  \/ (name = "outro" /\ kind = "closing" /\ call = 1) ->
  find_titled h name segments = Some r ->
  Utils.get_config_value
    (cfg_writer_model (from_runnable_config env config)) = inr model ->
  Utils.get_config_value
    (cfg_writer_provider (from_runnable_config env config)) = inr provider ->
  exists h1 new,
    write_intro_outro cap env h segments completed config
    = inr (h1, {| io_completed_segments := completed ++ new;
                  io_episode_segments_from_research :=
                    Utils.format_segments h1 (completed ++ new) |})
    /\ (forall e, In e completed -> h1 e = h e)
    /\ ((exists e, In e completed /\ h e = h r) ->
        h1 r = h r /\ ~ In r new)
    /\ ((forall e, In e completed -> h e <> h r) ->
        h1 r = {| title := title (h r); duration := duration (h r);
                  description := description (h r);
                  research := research (h r);
                  dialogue :=
                    chat cap call model provider
                      (final_segment_writer_instructions kind
                         (Utils.format_segments h completed)) |}
        /\ In r new).
Proof.
  intros Hname Hfind Hmodel Hprovider.
  unfold write_intro_outro. rewrite Hmodel. step_bind.
  rewrite Hprovider. step_bind.
  pose proof (write_final_segment_tracks 0 model provider "opening"
                (Utils.format_segments h completed) completed
                (find_titled h "intro" segments) h h [] r
                (fun _ _ => eq_refl) eq_refl) as F1.
  destruct (write_final_segment cap 0 model provider "opening" _ completed
              (find_titled h "intro" segments) (h, [])) as [ha na].
  destruct F1 as (A1 & O1 & T1).
  destruct Hname as [(-> & -> & ->) | (-> & -> & ->)].
  - assert (Hother : find_titled h "outro" segments <> Some r)
      by (apply (find_titled_apart h segments "intro" "outro" r);
          [discriminate | exact Hfind]).
    destruct (T1 Hfind) as [Skip1 Write1].
    destruct (py_in h r completed) eqn:P.
    + assert (Hc : exists e, In e completed /\ h e = h r)
        by now apply py_in_spec.
      destruct (Skip1 Hc) as [Ra ->].
      pose proof (write_final_segment_tracks 1 model provider "closing"
                    (Utils.format_segments h completed) completed
                    (find_titled h "outro" segments) h ha [] r A1 Ra) as F2.
      destruct (write_final_segment cap 1 model provider "closing" _ completed
                  (find_titled h "outro" segments) (ha, [])) as [hb nb].
      destruct F2 as (A2 & O2 & _). destruct (O2 Hother) as [Rb Nb].
      exists hb, nb. split; [reflexivity |]. split; [exact A2 |].
      split.
      * intros _. split; [exact Rb |]. rewrite Nb. intros [].
      * intros Hnone. destruct Hc as (e & He & Heq).
        destruct (Hnone e He Heq).
    + assert (Hnone : forall e, In e completed -> h e <> h r).
      { intros e He. now destruct (py_in_false h r completed P e He). }
      destruct (Write1 Hnone) as [Ra ->].
      pose proof (py_in_false h r completed P) as Hout.
      destruct (find_titled h "outro" segments) as [o|] eqn:Ho.
      * assert (Hor : o <> r) by congruence.
        unfold write_final_segment.
        destruct (py_in ha o completed) eqn:Po; cbn [negb].
        -- exists ha, [r]. split; [reflexivity |]. split; [exact A1 |].
           split.
           ++ intros (e & He & Heq). destruct (Hnone e He Heq).
           ++ intros _. split; [exact Ra | now left].
        -- exists (set_dialogue ha o
                     (chat cap 1 model provider
                        (final_segment_writer_instructions "closing"
                           (Utils.format_segments h completed)))),
                  ([r] ++ [o]).
           split; [reflexivity |].
           pose proof (py_in_false ha o completed Po) as Hout'.
           split.
           { intros e He. rewrite set_dialogue_other; [now apply A1 |].
             now apply (Hout' e). }
           split.
           ++ intros (e & He & Heq). destruct (Hnone e He Heq).
           ++ intros _. split; [| now left].
              rewrite set_dialogue_other by (intros E; now apply Hor).
              exact Ra.
      * exists ha, [r]. split; [reflexivity |]. split; [exact A1 |].
        split.
        -- intros (e & He & Heq). destruct (Hnone e He Heq).
        -- intros _. split; [exact Ra | now left].
  - assert (Hother : find_titled h "intro" segments <> Some r)
      by (apply (find_titled_apart h segments "outro" "intro" r);
          [discriminate | exact Hfind]).
    destruct (O1 Hother) as [Ra Na].
    pose proof (write_final_segment_tracks 1 model provider "closing"
                  (Utils.format_segments h completed) completed
                  (find_titled h "outro" segments) h ha na r A1 Ra) as F2.
    destruct (write_final_segment cap 1 model provider "closing" _ completed
                (find_titled h "outro" segments) (ha, na)) as [hb nb].
    destruct F2 as (A2 & _ & T2). destruct (T2 Hfind) as [Skip2 Write2].
    exists hb, nb. split; [reflexivity |]. split; [exact A2 |].
    split.
    + intros Hc. destruct (Skip2 Hc) as [Rb ->].
      split; [exact Rb |]. rewrite Na. intros [].
    + intros Hnone. destruct (Write2 Hnone) as [Rb ->].
      split; [exact Rb |]. apply in_or_app. right. now left.
Qed.

(** C8: the intro/outro stage tests the presence of the intro (or outro)
    of the plan in the accumulator by equality of whole segment objects:
    when the accumulator holds an object with the same five fields, the
    very object or a copy of it, the stage neither writes the segment nor
    adds it; when it holds none, the stage writes the segment and adds it,
    whatever titles the accumulator holds.  A planned intro (or outro) that
    needs no research is put into the accumulator by the planning stage and
    is not dispatched; so the stage skips it, and the compiler reads its
    planning-time dialogue (the empty string when the plan left it empty)
    under its title. *)
Theorem C8_presence_is_equality_of_whole_segments
    (h : store) (segments completed : list loc) (config : option RunnableConfig)
    (model provider name kind : string) (call : nat) (r : loc) :
  (name = "intro" /\ kind = "opening" /\ call = 0)
  \/ (name = "outro" /\ kind = "closing" /\ call = 1) ->
  find_titled h name segments = Some r ->
  Utils.get_config_value
    (cfg_writer_model (from_runnable_config env config)) = inr model ->
  Utils.get_config_value
    (cfg_writer_provider (from_runnable_config env config)) = inr provider ->
  exists h1 new,
    write_intro_outro cap env h segments completed config
    = inr (h1, {| io_completed_segments := completed ++ new;
                  io_episode_segments_from_research :=
                    Utils.format_segments h1 (completed ++ new) |})
    /\ ((exists e, In e completed /\ h e = h r) ->
        h1 r = h r /\ ~ In r new)
    /\ ((forall e, In e completed -> h e <> h r) ->
        h1 r = {| title := title (h r); duration := duration (h r);
                  description := description (h r);
                  research := research (h r);
                  dialogue :=
                    chat cap call model provider
                      (final_segment_writer_instructions kind
                         (Utils.format_segments h completed)) |}
        /\ In r new)
    /\ (research (h r) = false ->
        forall topic host_name guest_name plan_config sends update,
          generate_podcast_plan cap env h topic host_name guest_name plan_config
          = inr (sends, update) ->
          plan_segments update = segments ->
          In r (plan_completed_segments update)
          /\ forall d, In d sends -> segment (arg d) <> r)
    /\ ((exists e, In e completed /\ h e = h r) ->
        let final := operator_add completed (completed ++ new) in
        (forall e, In e final -> title (h1 e) = title (h r) ->
                   dialogue (h1 e) = dialogue (h r)) ->
        title_dialogue_map h1 final !! title (h r) = Some (dialogue (h r))
        /\ (forall h2 transcript,
              compile_final_transcript h1 segments final = inr (h2, transcript) ->
              dialogue (h2 r) = dialogue (h r))
        /\ ((forall s, In s segments -> In (title (h1 s)) (titles h1 final)) ->
            exists h2,
              compile_final_transcript h1 segments final
              = inr (h2, join (nl +:+ nl) (map (fun s => dialogue (h2 s)) segments))
              /\ dialogue (h2 r) = dialogue (h r))).
Proof.
  intros Hname Hfind Hmodel Hprovider.
  destruct (write_intro_outro_tracks h segments completed config model provider
              name kind call r Hname Hfind Hmodel Hprovider)
    as (h1 & new & Hrun & Hacc & Hskip & Hwrite).
  destruct (find_titled_Some _ _ _ _ Hfind) as [Hin Htitle].
  exists h1, new.
  split; [exact Hrun |]. split; [exact Hskip |]. split; [exact Hwrite |].
  split.
  { intros Hresearch topic host_name guest_name plan_config sends update
           Hplan Hsegments.
    clear Hmodel Hprovider Hrun Hacc Hskip Hwrite.
    unfold generate_podcast_plan in Hplan.
    destruct (Utils.get_config_value _) as [e|model']; [discriminate |].
    step_bind in Hplan.
    destruct (Utils.get_config_value _) as [e|provider']; [discriminate |].
    step_bind in Hplan.
    destruct (tavily_search_async cap _) as [e|results]; [discriminate |].
    step_bind in Hplan.
    inversion Hplan; subst; clear Hplan. simpl in *. split.
    - apply List.filter_In. split; [exact Hin | now rewrite Hresearch].
    - intros d Hd. apply in_map_iff in Hd as (s & <- & Hs). simpl.
      apply List.filter_In in Hs as [_ Hs]. intros ->. congruence. }
  intros Hcopy final Hunique.
  destruct (Hskip Hcopy) as [Hsame _].
  destruct Hcopy as (e & He & Heq).
  assert (Hfinal : In (title (h r)) (titles h1 final)).
  { unfold titles. rewrite <- Heq, <- (Hacc e He).
    apply in_map with (f := fun s => title (h1 s)).
    unfold final, operator_add. apply in_or_app. now left. }
  assert (Hlookup : title_dialogue_map h1 final !! title (h r)
                    = Some (dialogue (h r))).
  { rewrite title_dialogue_map_lookup.
    destruct (last_dialogue_Some h1 (title (h r)) final Hfinal) as [d Hd].
    rewrite Hd. f_equal.
    apply last_dialogue_In in Hd as (s & Hs & Ht & <-).
    now rewrite (Hunique s Hs Ht). }
  assert (Hread : forall h2,
            (forall s, In s segments ->
                       last_dialogue h1 (title (h1 s)) final
                       = Some (dialogue (h2 s))) ->
            dialogue (h2 r) = dialogue (h r)).
  { intros h2 Hdialogues. specialize (Hdialogues r Hin).
    rewrite <- title_dialogue_map_lookup, Hsame, Hlookup in Hdialogues.
    congruence. }
  split; [exact Hlookup |]. split.
  - intros h2 transcript Hcompile.
    pose proof (compile_final_transcript_success _ _ _ _ _ Hcompile) as Hpresent.
    destruct (compile_final_transcript_present h1 segments final Hpresent)
      as (h2' & Hrun' & Hdialogues).
    rewrite Hrun' in Hcompile. inversion Hcompile; subst h2'; clear Hcompile.
    now apply Hread.
  - intros Hpresent.
    destruct (compile_final_transcript_present h1 segments final Hpresent)
      as (h2 & Hrun' & Hdialogues).
    exists h2. split; [exact Hrun' | now apply Hread].
Qed.

End IntroOutroPresence.

(** Three runs of the stage on a plan that opens with an intro which needs
    no research and was left empty by the plan.  In the first the
    accumulator holds the intro object itself, as the planning stage leaves
    it: the intro is skipped and the compiler reads its empty dialogue.  In
    the second the accumulator holds another object with the same five
    fields: the intro is skipped as well.  In the third the accumulator
    holds an object with the same title and another dialogue: the intro is
    written and added. *)
Lemma C8_witness :
  let cap := example_capabilities State.pass in
  let intro := State.mkSegment "Intro" "30" "opening" false "" in
  let basics := State.mkSegment "Basics" "300" "the basics" true "Bob: basics" in
  let other := State.mkSegment "Intro" "30" "opening" false "Ann: old" in
  (exists h1 new h2,
     Graph.write_intro_outro cap ∅ (store_of [intro; basics]) [0; 1] [0; 1] None
     = inr (h1, {| Graph.io_completed_segments := [0; 1] ++ new;
                   Graph.io_episode_segments_from_research :=
                     Utils.format_segments h1 ([0; 1] ++ new) |})
     /\ h1 0 = intro /\ ~ In 0 new
     /\ Graph.compile_final_transcript h1 [0; 1]
          (State.operator_add [0; 1] ([0; 1] ++ new))
        = inr (h2, join (nl +:+ nl) (map (fun s => State.dialogue (h2 s)) [0; 1]))
     /\ State.dialogue (h2 0) = "")
  /\ (exists h1 new,
        Graph.write_intro_outro cap ∅ (store_of [intro; basics; intro])
          [0; 1] [2; 1] None
        = inr (h1, {| Graph.io_completed_segments := [2; 1] ++ new;
                      Graph.io_episode_segments_from_research :=
                        Utils.format_segments h1 ([2; 1] ++ new) |})
        /\ h1 0 = intro /\ ~ In 0 new)
  /\ (exists h1 new,
        Graph.write_intro_outro cap ∅ (store_of [intro; basics; other])
          [0; 1] [2; 1] None
        = inr (h1, {| Graph.io_completed_segments := [2; 1] ++ new;
                      Graph.io_episode_segments_from_research :=
                        Utils.format_segments h1 ([2; 1] ++ new) |})
        /\ h1 0 = State.mkSegment "Intro" "30" "opening" false "Ann: hello"
        /\ In 0 new).
Proof.
  intros cap intro basics other.
  split; [| split].
  - pose proof (C8_presence_is_equality_of_whole_segments cap ∅
                  (store_of [intro; basics]) [0; 1] [0; 1] None
                  "claude-3-5-sonnet-latest" "anthropic" "intro" "opening" 0 0
                  (or_introl (conj eq_refl (conj eq_refl eq_refl))) eq_refl) as H.
    destruct H as (h1 & new & Hrun & Hskip & _ & _ & Hcompile);
      [reflexivity | reflexivity |].
    assert (Hcopy : exists e, In e [0; 1]
                              /\ store_of [intro; basics] e
                                 = store_of [intro; basics] 0)
      by (exists 0; split; [now left | reflexivity]).
    destruct (Hskip Hcopy) as [Hsame Hnew].
    assert (Hstore : h1 = store_of [intro; basics] /\ new = []).
    { assert (E : Graph.write_intro_outro cap ∅ (store_of [intro; basics])
                    [0; 1] [0; 1] None
                  = inr (store_of [intro; basics],
                         {| Graph.io_completed_segments := [0; 1] ++ [];
                            Graph.io_episode_segments_from_research :=
                              Utils.format_segments (store_of [intro; basics])
                                ([0; 1] ++ []) |}))
        by reflexivity.
      rewrite E in Hrun. injection Hrun as Eh En _.
      split; now symmetry. }
    destruct Hstore as [-> ->].
    destruct (Hcompile Hcopy) as (_ & _ & Hreturn).
    { intros e He Ht. simpl in He.
      repeat (destruct He as [<- | He]; [first [reflexivity | discriminate Ht] |]).
      destruct He. }
    destruct Hreturn as (h2 & Hrun2 & Hd).
    { intros s Hs. simpl in Hs.
      repeat (destruct Hs as [<- | Hs]; [simpl; tauto |]). destruct Hs. }
    exists (store_of [intro; basics]), [], h2.
    split; [exact Hrun |]. split; [exact Hsame |]. split; [exact Hnew |].
    split; [exact Hrun2 | exact Hd].
  - pose proof (C8_presence_is_equality_of_whole_segments cap ∅
                  (store_of [intro; basics; intro]) [0; 1] [2; 1] None
                  "claude-3-5-sonnet-latest" "anthropic" "intro" "opening" 0 0
                  (or_introl (conj eq_refl (conj eq_refl eq_refl))) eq_refl) as H.
    destruct H as (h1 & new & Hrun & Hskip & _);
      [reflexivity | reflexivity |].
    exists h1, new. split; [exact Hrun |].
    apply Hskip. exists 2. split; [now left | reflexivity].
  - pose proof (C8_presence_is_equality_of_whole_segments cap ∅
                  (store_of [intro; basics; other]) [0; 1] [2; 1] None
                  "claude-3-5-sonnet-latest" "anthropic" "intro" "opening" 0 0
                  (or_introl (conj eq_refl (conj eq_refl eq_refl))) eq_refl) as H.
    destruct H as (h1 & new & Hrun & _ & Hwrite & _);
      [reflexivity | reflexivity |].
    exists h1, new. split; [exact Hrun |].
    apply Hwrite. intros e He E. simpl in He.
    repeat (destruct He as [<- | He]; [discriminate E |]).
    destruct He.
Defined.
